(** * Time Capture: the front-end HTTP client, the Daily Review merge,
      the label payload, and the aggregation core

    The development follows the TypeScript sources of the front end:

    - [frontend/src/types.ts]: [Suggestion] and [BlockDto];
    - [frontend/src/api/client.ts]: token storage in [localStorage], the
      request interceptor, [refreshAccessToken] and the response
      interceptor with its single-flight refresh queue;
    - [frontend/src/api/blocks.ts]: the [LabelPayload] type;
    - [frontend/src/pages/DailyReview.tsx]: [load], which merges the two
      block listings by block id;
    - [frontend/src/components/BlockCard.tsx]: [apply], which builds the
      label payload;
    - the server-side aggregator and label applier, which are not part of
      the sources at hand and are modelled from the specification.

    A second copy of the client carries an [AUTH_DISABLED] switch; with
    the switch off it is client.ts line for line, and client.ts is what is
    modelled here.

    JavaScript objects used as maps ([localStorage], header bags, [Map])
    are [gmap]s; an optional field is an [option]; an [async] function is
    split at its [await]s into the part that runs before the suspension
    and the continuation that runs when the awaited promise settles. The
    code between two suspensions runs without interruption, so one event
    of the outside world (a call, an answer) is one step of the state.

    Part I holds the definitions, Part II the lemmas and theorems. *)

From Stdlib Require Import ZArith QArith Sorted.
From stdpp Require Import gmap strings list fin_maps.

Open Scope string_scope.
Open Scope Z_scope.

(* ===================================================================== *)
(** * Part I: definitions                                                 *)
(* ===================================================================== *)

(** JavaScript truthiness of a string: only the empty string is falsy. *)
Definition truthy (s : string) : bool :=
  match s with
  | EmptyString => false
  | String _ _ => true
  end.

(** ** types.ts *)
Module Types.

Inductive LabelType := client_label | project_label | task_label.

Record Suggestion := mkSuggestion {
  label_type : LabelType;
  value_text : string;
  confidence : Q   (* a JSON number; it is carried along, never computed on *)
}.

Record BlockDto := mkBlockDto {
  id : Z;
  start : string;
  end_ : string;
  minutes : Z;
  title : option string;
  url : option string;
  file_path : option string;
  client : option string;
  project : option string;
  task : option string;
  notes : option string;
  suggestions : option (list Suggestion)
}.

(** [{ ...x, suggestions: s }] *)
Definition with_suggestions (s : list Suggestion) (x : BlockDto) : BlockDto :=
  mkBlockDto (id x) (start x) (end_ x) (minutes x) (title x) (url x)
    (file_path x) (client x) (project x) (task x) (notes x) (Some s).

End Types.

(** ** api/client.ts *)
Module Client.

(** *** Token storage (lines 23-39) *)

(** [localStorage]: a map from keys to string values. *)
Abbreviation Storage := (gmap string string).

Definition getItem (k : string) (ls : Storage) : option string := ls !! k.
Definition setItem (k v : string) (ls : Storage) : Storage := <[k:=v]> ls.
Definition removeItem (k : string) (ls : Storage) : Storage := delete k ls.

Definition ACCESS_KEY : string := "jwt_access".
Definition REFRESH_KEY : string := "jwt_refresh".

(** [Partial<JwtPair>]: either field may be missing. *)
Record PartialJwtPair := mkTokens {
  access : option string;
  refresh : option string
}.

Definition getAccessToken (ls : Storage) : option string := getItem ACCESS_KEY ls.
Definition getRefreshToken (ls : Storage) : option string := getItem REFRESH_KEY ls.

Definition setTokens (tokens : PartialJwtPair) (ls : Storage) : Storage :=
  let ls1 :=
    match access tokens with
    | Some a => if truthy a then setItem ACCESS_KEY a ls else ls
    | None => ls
    end in
  match refresh tokens with
  | Some r => if truthy r then setItem REFRESH_KEY r ls1 else ls1
  | None => ls1
  end.

Definition clearTokens (ls : Storage) : Storage :=
  removeItem REFRESH_KEY (removeItem ACCESS_KEY ls).

(** No token key of the storage holds the empty string. Everything
    [setTokens] writes is truthy, so every writer of this module keeps
    the property. *)
Definition tokens_wf (ls : Storage) : Prop :=
  getAccessToken ls ≠ Some "" ∧ getRefreshToken ls ≠ Some "".

(** *** Requests *)

Abbreviation ReqId := nat.
Abbreviation Headers := (gmap string string).

(** [AxiosRequestConfig] with the [_retry] flag of types/axios.d.ts; a
    missing flag reads as [false]. *)
Record AxiosRequestConfig := mkConfig {
  url : string;
  headers : option Headers;
  _retry : bool
}.

(** [config.headers = config.headers ?? {}; config.headers.Authorization = v] *)
Definition set_Authorization (v : string) (config : AxiosRequestConfig) : AxiosRequestConfig :=
  mkConfig (url config)
           (Some (<["Authorization" := v]> (default ∅ (headers config))))
           (_retry config).

Definition set_retry (config : AxiosRequestConfig) : AxiosRequestConfig :=
  mkConfig (url config) (headers config) true.

(** The request interceptor (lines 41-48). *)
Definition request_interceptor (ls : Storage) (config : AxiosRequestConfig) : AxiosRequestConfig :=
  match getAccessToken ls with
  | Some token =>
      if truthy token then set_Authorization ("Bearer " ++ token) config else config
  | None => config
  end.

(** An [AxiosError]: [err_config] names the request whose config object
    is [error.config]; [err_status] is [error.response?.status]. *)
Record AxiosError := mkError {
  err_config : ReqId;
  err_status : option Z;
  err_message : string
}.

(** Where the promise of a request stands. *)
Inductive Phase :=
| InFlight                          (* transmitted, not answered yet *)
| Queued (error : AxiosError)       (* handler suspended at line 75 *)
| Refreshing (error : AxiosError)   (* handler suspended at line 79 *)
| Fulfilled
| Rejected (error : AxiosError)
| Threw.                            (* rejected with an exception of the handler *)

Record Request := mkRequest {
  config : AxiosRequestConfig;
  phase : Phase
}.

(** The module state of client.ts together with the browser and the
    network around it. *)
Record State := mkState {
  localStorage : Storage;
  isRefreshing : bool;
  pendingRequests : list ReqId;        (* the [resolve] callbacks, by suspended request *)
  location_href : string;              (* [window.location.href] *)
  requests : gmap ReqId Request;       (* the config object and promise of every request *)
  refreshPosts : list (ReqId * string);(* unanswered POSTs to the refresh route:
                                          the awaiting handler and the token sent *)
  wire : list (ReqId * AxiosRequestConfig)  (* every transmission, oldest first *)
}.

Definition set_localStorage (ls : Storage) (c : State) : State :=
  mkState ls (isRefreshing c) (pendingRequests c) (location_href c)
          (requests c) (refreshPosts c) (wire c).
Definition set_isRefreshing (b : bool) (c : State) : State :=
  mkState (localStorage c) b (pendingRequests c) (location_href c)
          (requests c) (refreshPosts c) (wire c).
Definition set_pendingRequests (l : list ReqId) (c : State) : State :=
  mkState (localStorage c) (isRefreshing c) l (location_href c)
          (requests c) (refreshPosts c) (wire c).
Definition set_location_href (h : string) (c : State) : State :=
  mkState (localStorage c) (isRefreshing c) (pendingRequests c) h
          (requests c) (refreshPosts c) (wire c).
Definition set_requests (m : gmap ReqId Request) (c : State) : State :=
  mkState (localStorage c) (isRefreshing c) (pendingRequests c) (location_href c)
          m (refreshPosts c) (wire c).
Definition set_refreshPosts (l : list (ReqId * string)) (c : State) : State :=
  mkState (localStorage c) (isRefreshing c) (pendingRequests c) (location_href c)
          (requests c) l (wire c).
Definition set_wire (w : list (ReqId * AxiosRequestConfig)) (c : State) : State :=
  mkState (localStorage c) (isRefreshing c) (pendingRequests c) (location_href c)
          (requests c) (refreshPosts c) w.

Definition set_phase (id : ReqId) (p : Phase) (c : State) : State :=
  match requests c !! id with
  | Some r => set_requests (<[id := mkRequest (config r) p]> (requests c)) c
  | None => c
  end.

(** [api(config)]: the request interceptor runs on the config, then
    the request goes out. axios sends a merged copy of the config it is
    given, custom fields included, so a [_retry] set on [original] is
    found again on the [error.config] of the retry; the model keeps one
    config per request. *)
Definition api (id : ReqId) (config : AxiosRequestConfig) (c : State) : State :=
  let config' := request_interceptor (localStorage c) config in
  set_wire (wire c ++ [(id, config')])
    (set_requests (<[id := mkRequest config' InFlight]> (requests c)) c).

(** Lines 86-91, the code after either [await] of the handler. *)
Definition retry_original (id : ReqId) (c : State) : State :=
  match requests c !! id with
  | Some r =>
      let original := config r in
      let original :=
        match getAccessToken (localStorage c) with
        | Some token =>
            if truthy token then set_Authorization ("Bearer " ++ token) original
            else original
        | None => original
        end in
      api id original c
  | None => c
  end.

(** The [finally] block of [refreshAccessToken] (lines 60-64). Calling a
    callback resolves the promise a queued handler awaits; the handlers
    so released continue, in queue order, once the block has run, and
    before the handler that awaits [refreshAccessToken] itself does: their
    promises are settled first. *)
Definition release (l : list ReqId) (c : State) : State :=
  foldl (λ acc id, retry_original id acc) c l.

Definition run_finally (c : State) : State :=
  let c := set_isRefreshing false c in
  let released := pendingRequests c in
  let c := set_pendingRequests [] c in
  release released c.

(** [refreshAccessToken] up to its [await] (lines 53-58): it either
    throws before anything is posted, or leaves a POST unanswered. *)
Inductive Started := Posted | Thrown.

Definition refreshAccessToken (caller : ReqId) (c : State) : Started * State :=
  let c := set_isRefreshing true c in
  match getRefreshToken (localStorage c) with
  | Some refresh =>
      if truthy refresh
      then (Posted, set_refreshPosts (refreshPosts c ++ [(caller, refresh)]) c)
      else (Thrown, run_finally c)
  | None => (Thrown, run_finally c)
  end.

(** [refreshAccessToken] from the answer of its POST on (lines 58-64):
    [Some a] is a response whose [data.access] is [a], [None] a
    rejection. The boolean tells whether the function returned. *)
Definition refreshAccessToken_resume (answer : option string) (c : State) : bool * State :=
  match answer with
  | Some data_access =>
      (true,
       run_finally
         (set_localStorage (setTokens (mkTokens (Some data_access) None) (localStorage c)) c))
  | None => (false, run_finally c)
  end.

(** What one run of a handler piece ends in. *)
Inductive Outcome :=
| Reject (error : AxiosError)   (* [return Promise.reject(error)] *)
| Resent                        (* [return api(original)] *)
| AwaitQueue                    (* suspended at line 75 *)
| AwaitRefresh                  (* suspended at line 79 *)
| TypeError.                    (* [error.config] was undefined *)

Definition is_401 (status : option Z) : bool :=
  match status with
  | Some s => s =? 401
  | None => false
  end.

(** The [catch] block of the handler (lines 80-84). *)
Definition catch_refresh (error : AxiosError) (c : State) : Outcome * State :=
  (Reject error,
   set_location_href "/login" (set_localStorage (clearTokens (localStorage c)) c)).

(** The handler after an [await] that did not throw (lines 86-91). *)
Definition after_await (id : ReqId) (c : State) : Outcome * State :=
  (Resent, retry_original id c).

(** The rejection handler of the response interceptor (lines 69-94), up
    to its first suspension. *)
Definition onRejected (error : AxiosError) (c : State) : Outcome * State :=
  let id := err_config error in
  let status := err_status error in
  match requests c !! id with
  | Some r =>
      let original := config r in
      if is_401 status && negb (_retry original) then
        if isRefreshing c then
          (AwaitQueue, set_pendingRequests (pendingRequests c ++ [id]) c)
        else
          let c := set_requests (<[id := mkRequest (set_retry original) (phase r)]> (requests c)) c in
          match refreshAccessToken id c with
          | (Posted, c) => (AwaitRefresh, c)
          | (Thrown, c) => catch_refresh error c
          end
      else (Reject error, c)
  | None =>
      if is_401 status then (TypeError, c) else (Reject error, c)
  end.

(** What happens around the client: the application issues a request,
    the server answers one, the refresh POST is answered, and the two
    token writers of AuthProvider.tsx run (its [login] ends in
    [setTokens(data)], its [logout] in [clearTokens()] and a redirect). *)
Inductive Event :=
| Call (id : ReqId) (cfg : AxiosRequestConfig)
| Succeed (id : ReqId)
| Fail (id : ReqId) (status : option Z) (message : string)
| RefreshAnswer (id : ReqId) (answer : option string)
| Login (data : PartialJwtPair)
| Logout.

(** The promise bookkeeping after a handler piece has run. *)
Definition record_outcome (id : ReqId) (error : AxiosError) (oc : Outcome * State) : State :=
  match oc with
  | (Reject e, c) => set_phase id (Rejected e) c
  | (Resent, c) => c
  | (AwaitQueue, c) => set_phase id (Queued error) c
  | (AwaitRefresh, c) => set_phase id (Refreshing error) c
  | (TypeError, c) => set_phase id Threw c
  end.

Fixpoint remove_post (id : ReqId) (posts : list (ReqId * string)) : list (ReqId * string) :=
  match posts with
  | [] => []
  | p :: rest => if decide (p.1 = id) then rest else p :: remove_post id rest
  end.

Definition step (ev : Event) (c : State) : option State :=
  match ev with
  | Call id cfg =>
      match requests c !! id with
      | None => Some (api id cfg c)
      | Some _ => None
      end
  | Succeed id =>
      match requests c !! id with
      | Some (mkRequest _ InFlight) => Some (set_phase id Fulfilled c)
      | _ => None
      end
  | Fail id status message =>
      match requests c !! id with
      | Some (mkRequest _ InFlight) =>
          let error := mkError id status message in
          Some (record_outcome id error (onRejected error c))
      | _ => None
      end
  | RefreshAnswer id answer =>
      match requests c !! id with
      | Some (mkRequest _ (Refreshing error)) =>
          if decide (id ∈ (refreshPosts c).*1) then
            let c := set_refreshPosts (remove_post id (refreshPosts c)) c in
            match refreshAccessToken_resume answer c with
            | (true, c) => Some (record_outcome id error (after_await id c))
            | (false, c) => Some (record_outcome id error (catch_refresh error c))
            end
          else None
      | _ => None
      end
  | Login data => Some (set_localStorage (setTokens data (localStorage c)) c)
  | Logout =>
      Some (set_location_href "/login"
              (set_localStorage (clearTokens (localStorage c)) c))
  end.

Fixpoint exec (evs : list Event) (c : State) : option State :=
  match evs with
  | [] => Some c
  | ev :: rest =>
      match step ev c with
      | Some c' => exec rest c'
      | None => None
      end
  end.

(** A freshly loaded page over the storage [ls] left by earlier visits. *)
Definition init (ls : Storage) : State :=
  mkState ls false [] "/" ∅ [] [].

Inductive reachable : State → Prop :=
| reachable_init (ls : Storage) : tokens_wf ls → reachable (init ls)
| reachable_step (ev : Event) (c c' : State) :
    reachable c → step ev c = Some c' → reachable c'.

(** The [Authorization] header of a config, if it has one. *)
Definition authorization (cfg : AxiosRequestConfig) : option string :=
  headers cfg ≫= (.!! "Authorization").

(** The config a re-sent request goes out with when its config object
    is [cfg]: lines 86-90 set the header, then the request interceptor
    of [api] runs. *)
Definition resent_config (ls : Storage) (cfg : AxiosRequestConfig) : AxiosRequestConfig :=
  request_interceptor ls (request_interceptor ls cfg).

(** What holds of every state the client can be in: no token key holds
    the empty string; the flag is up exactly while a refresh POST is
    unanswered, and there is at most one such POST; handlers are queued
    only while the flag is up; and the queue and the POST list name
    suspended handlers. *)
Record Inv (c : State) : Prop := mkInv {
  inv_tokens : tokens_wf (localStorage c);
  inv_flag : isRefreshing c = bool_decide (refreshPosts c ≠ []);
  inv_single : (length (refreshPosts c) ≤ 1)%nat;
  inv_idle : isRefreshing c = false → pendingRequests c = [];
  inv_queued : ∀ id, id ∈ pendingRequests c →
    ∃ cfg e, requests c !! id = Some (mkRequest cfg (Queued e));
  inv_refreshing : ∀ id, id ∈ (refreshPosts c).*1 →
    ∃ cfg e, requests c !! id = Some (mkRequest cfg (Refreshing e))
}.

(** How often request [id] went out. *)
Definition transmissions (id : ReqId) (c : State) : nat :=
  length (filter (λ p, p.1 = id) (wire c)).

End Client.

(** ** api/blocks.ts *)
Module Blocks.

Inductive RuleKind := contains | regex | equals.

(** [LabelPayload]: every field but [block_id] is optional; [None] is a
    key the object does not have. *)
Record LabelPayload := mkPayload {
  block_id : Z;
  client : option string;
  project : option string;
  task : option string;
  notes : option string;
  create_rule : option bool;
  create_rule_field : option Types.LabelType;
  create_rule_value : option string;
  pattern : option string;
  kind : option RuleKind
}.

End Blocks.

(** ** components/BlockCard.tsx *)
Module BlockCard.

(** The props and the [useState] cells [apply] reads. *)
Record Card := mkCard {
  block : Types.BlockDto;
  client : string;
  project : string;
  task : string;
  notes : string;
  createRule : bool;
  ruleField : Types.LabelType;
  ruleValue : string
}.

(** [if (v) payload.k = v] *)
Definition if_truthy (v : string) : option string :=
  if truthy v then Some v else None.

(** The payload [apply] hands to [labelBlock] (lines 71-82). *)
Definition apply (s : Card) : Blocks.LabelPayload :=
  Blocks.mkPayload
    (Types.id (block s))
    (if_truthy (client s))
    (if_truthy (project s))
    (if_truthy (task s))
    (if_truthy (notes s))
    (if createRule s then Some true else None)
    (if createRule s then Some (ruleField s) else None)
    (if createRule s then Some (ruleValue s) else None)
    None
    None.

(** The claimed shape of the payload: [block_id] and the non-empty
    label inputs, nothing else. *)
Definition labels_only (s : Card) : Blocks.LabelPayload :=
  Blocks.mkPayload
    (Types.id (block s))
    (if_truthy (client s))
    (if_truthy (project s))
    (if_truthy (task s))
    (if_truthy (notes s))
    None None None None None.

End BlockCard.

(** ** pages/DailyReview.tsx *)
Module DailyReview.
Import Types.

(** [new Map(withSug.map((x) => [x.id, x.suggestions || []]))]: the
    entries are inserted in order, so a later entry replaces an earlier
    one with the same key. *)
Definition sugMap (withSug : list BlockDto) : gmap Z (list Suggestion) :=
  foldl (λ m x, <[id x := default [] (suggestions x)]> m) ∅ withSug.

(** The list [load] hands to [setBlocks] (lines 19-21). *)
Definition load (b withSug : list BlockDto) : list BlockDto :=
  let m := sugMap withSug in
  map (λ x, with_suggestions (default [] (m !! id x)) x) b.


End DailyReview.

(** ** The server-side core *)
Module Core.

Record Identity := mkIdentity {
  app_id : string;
  normalized_title : string;
  url : option string;
  file_path : option string
}.

#[export] Instance Identity_eq_dec : EqDecision Identity.
Proof. solve_decision. Defined.

(** Timestamps are whole seconds. *)
Record RawEvent := mkEvent {
  ts_utc : Z;
  identity : Identity
}.

(** A stored block; its id is the key it is stored under. *)
Record Block := mkBlock {
  start : Z;
  end_ : Z;
  minutes : Z;
  title : string;
  b_url : option string;
  b_file_path : option string;
  client : option string;
  project : option string;
  task : option string;
  notes : option string
}.

Definition tolerance_factor : Z := 2.

(** The block being built: its identity, its start, and the timestamp
    of the last sample put into it. *)
Record Open := mkOpen {
  o_identity : Identity;
  o_start : Z;
  o_end : Z
}.

Definition open_at (e : RawEvent) : Open :=
  mkOpen (identity e) (ts_utc e) (ts_utc e).

Definition block_of (o : Open) (end_ts : Z) : Block :=
  mkBlock (o_start o) end_ts ((end_ts - o_start o) / 60)
          (normalized_title (o_identity o)) (url (o_identity o))
          (file_path (o_identity o)) None None None None.

(** Closing: a block shorter than the dwell threshold is dropped. *)
Definition close (min_dwell_seconds : Z) (o : Open) (end_ts : Z) : list Block :=
  if end_ts - o_start o <? min_dwell_seconds then [] else [block_of o end_ts].

Definition gap_exceeded (poll_seconds : Z) (o : Open) (e : RawEvent) : bool :=
  poll_seconds * tolerance_factor <? ts_utc e - o_end o.

(** Where a block closed by the sample [e] ends. Section 4.1 of the
    specification leaves it at the block's own last sample
    ([switch_ends = false]); the first scenario of section 8 lets a
    block that is closed by a change of identity within the tolerance
    run up to the sample that closes it ([switch_ends = true]). *)
Definition closing_end (switch_ends : bool) (poll_seconds : Z) (o : Open) (e : RawEvent) : Z :=
  if switch_ends && negb (gap_exceeded poll_seconds o e) then ts_utc e else o_end o.

(** Modelled from the spec: the server's BlockAggregator (section 4.1)
    is not among the sources. One pass over the samples in timestamp
    order with an open block keyed by identity: a sample of another
    identity, or one that comes later than [poll_seconds *
    tolerance_factor] after the previous sample, closes the open block
    and starts a new one; any other sample extends the open block. The
    last open block is closed at the end of the samples. *)
Fixpoint scan (switch_ends : bool) (min_dwell_seconds poll_seconds : Z)
    (open : option Open) (events : list RawEvent) : list Block :=
  match events with
  | [] =>
      match open with
      | Some o => close min_dwell_seconds o (o_end o)
      | None => []
      end
  | e :: rest =>
      match open with
      | None => scan switch_ends min_dwell_seconds poll_seconds (Some (open_at e)) rest
      | Some o =>
          if bool_decide (identity e ≠ o_identity o) || gap_exceeded poll_seconds o e
          then close min_dwell_seconds o (closing_end switch_ends poll_seconds o e)
               ++ scan switch_ends min_dwell_seconds poll_seconds (Some (open_at e)) rest
          else scan switch_ends min_dwell_seconds poll_seconds
                    (Some (mkOpen (o_identity o) (o_start o) (ts_utc e))) rest
      end
  end.

(** Modelled from the spec: [aggregate(events, min_dwell_seconds,
    poll_seconds)] of section 4.1, the scan started with no open block. *)
Definition aggregate (switch_ends : bool) (events : list RawEvent)
    (min_dwell_seconds poll_seconds : Z) : list Block :=
  scan switch_ends min_dwell_seconds poll_seconds None events.




(** [labels: partial{client, project, task, notes}] *)
Record Labels := mkLabels {
  l_client : option string;
  l_project : option string;
  l_task : option string;
  l_notes : option string
}.

(** The labels a [POST label-block] body carries. *)
Definition labels_of (p : Blocks.LabelPayload) : Labels :=
  mkLabels (Blocks.client p) (Blocks.project p) (Blocks.task p) (Blocks.notes p).

Definition write (new old : option string) : option string :=
  match new with
  | Some v => Some v
  | None => old
  end.

Definition write_labels (labels : Labels) (b : Block) : Block :=
  mkBlock (start b) (end_ b) (minutes b) (title b) (b_url b) (b_file_path b)
          (write (l_client labels) (client b))
          (write (l_project labels) (project b))
          (write (l_task labels) (task b))
          (write (l_notes labels) (notes b)).

Inductive ApplyError := NotFoundError.

(** Modelled from the spec: the label write of the server's
    LabelApplier (section 4.4) is not among the sources. It fails with
    [NotFoundError] on an unknown block id; otherwise it writes the
    fields present in [labels] and returns the updated block. *)
Definition apply (store : gmap Z Block) (block_id : Z) (labels : Labels)
    : ApplyError + (gmap Z Block * Block) :=
  match store !! block_id with
  | None => inl NotFoundError
  | Some b =>
      let b' := write_labels labels b in
      inr (<[block_id := b']> store, b')
  end.

End Core.

(** ** Runs of the client used as examples *)
Module Scenarios.
Import Client.

Definition fresh (u : string) : AxiosRequestConfig := mkConfig u None false.

Definition signed_in : Event := Login (mkTokens (Some "a0") (Some "r0")).

(** The state a run from a fresh page with an empty storage ends in. *)
Definition state_after (evs : list Event) : State :=
  default (init ∅) (exec evs (init ∅)).

(** Request 1 is answered 401 and starts the refresh; request 2 is
    still in flight. *)
Definition refresh_out : list Event :=
  [signed_in;
   Call 1%nat (fresh "/api/blocks-today/");
   Call 2%nat (fresh "/api/suggestions-today/");
   Fail 1%nat (Some 401) "Unauthorized"].

(** Then request 2 is answered 401 as well and is queued. *)
Definition one_queued : list Event :=
  refresh_out ++ [Fail 2%nat (Some 401) "Unauthorized"].

(** The refresh succeeds; request 2, re-sent, is answered 401 again,
    starts a refresh of its own and is re-sent once more. *)
Definition queued_twice : list Event :=
  one_queued ++
  [RefreshAnswer 1%nat (Some "a1");
   Fail 2%nat (Some 401) "Unauthorized";
   RefreshAnswer 2%nat (Some "a2")].

(** Request 1 has been retried after its refresh and is in flight
    again when request 2 is answered 401 and starts the next refresh. *)
Definition retried_during_refresh : list Event :=
  refresh_out ++
  [RefreshAnswer 1%nat (Some "a1");
   Fail 2%nat (Some 401) "Unauthorized"].

End Scenarios.

(** ** Sample data *)
Module Samples.

Definition suggestion_acme : Types.Suggestion :=
  Types.mkSuggestion Types.client_label "Acme" 1.

Definition dto (i : Z) (sug : option (list Types.Suggestion)) : Types.BlockDto :=
  Types.mkBlockDto i "2025-01-01T09:00:00Z" "2025-01-01T09:30:00Z" 30
    (Some "Editor") None None None None None None sug.

Definition blocks_today : list Types.BlockDto := [dto 7 None; dto 8 None].

Definition suggestions_today : list Types.BlockDto :=
  [dto 7 (Some [suggestion_acme]); dto 9 None].

(** A card with a client typed in and the create-rule box ticked. *)
Definition card_with_rule : BlockCard.Card :=
  BlockCard.mkCard (dto 7 None) "Acme" "" "" "" true Types.client_label "Acme".

Definition editor : Core.Identity := Core.mkIdentity "editor" "main.v" None None.
Definition browser : Core.Identity :=
  Core.mkIdentity "browser" "Inbox" (Some "mail.example") None.


Definition stored_block : Core.Block :=
  Core.mkBlock 0 600 10 "main.v" None None (Some "Initech") None None None.

End Samples.

(** ** What a step of the client can touch *)
Module ClientExtra.
Import Client.

(** The requests an event may put on the wire: a call its own request;
    an answered refresh the queued ones and, when it succeeded, the one
    whose handler awaited it; a failing request the queued ones (its
    handler may run the [finally] block). *)
Definition resent (ev : Event) (c : State) : list ReqId :=
  match ev with
  | Call id _ => [id]
  | Succeed _ => []
  | Fail _ _ _ => pendingRequests c
  | RefreshAnswer id (Some _) => pendingRequests c ++ [id]
  | RefreshAnswer _ None => pendingRequests c
  | Login _ => []
  | Logout => []
  end.

(** The requests whose config or promise an event may change. *)
Definition touched (ev : Event) (c : State) : list ReqId :=
  match ev with
  | Call id _ => [id]
  | Succeed id => [id]
  | Fail id _ _ => id :: pendingRequests c
  | RefreshAnswer id _ => id :: pendingRequests c
  | Login _ => []
  | Logout => []
  end.

(** A promise that has been fulfilled or rejected. *)
Definition settled (p : Phase) : bool :=
  match p with
  | Fulfilled => true
  | Rejected _ => true
  | Threw => true
  | InFlight => false
  | Queued _ => false
  | Refreshing _ => false
  end.

(** No queued handler belongs to a request marked as retried: line 73
    lets only unmarked requests reach the queue. *)
Definition queued_unmarked (c : State) : Prop :=
  ∀ id, id ∈ pendingRequests c →
    ∃ r, requests c !! id = Some r ∧ _retry (config r) = false.

(** The one re-send a request is still owed: its refresh POST is out. *)
Definition owed (id : ReqId) (c : State) : nat :=
  if decide (id ∈ (refreshPosts c).*1) then 1%nat else 0%nat.

End ClientExtra.

(** ** The client with the [AUTH_DISABLED] switch *)
Module ClientDev.
Import Client.

(** The request interceptor of the switched client: nothing is attached
    in no-auth mode. *)
Definition request_interceptor (AUTH_DISABLED : bool) (ls : Storage)
    (config : AxiosRequestConfig) : AxiosRequestConfig :=
  if negb AUTH_DISABLED then
    match getAccessToken ls with
    | Some token =>
        if truthy token then set_Authorization ("Bearer " ++ token) config else config
    | None => config
    end
  else config.

(** The rejection handler of the switched client, up to its first
    suspension: in no-auth mode it rejects at once; otherwise it is the
    handler of client.ts, over the same [refreshAccessToken]. *)
Definition onRejected (AUTH_DISABLED : bool) (error : AxiosError) (c : State)
    : Outcome * State :=
  if AUTH_DISABLED then (Reject error, c)
  else
    let id := err_config error in
    let status := err_status error in
    match requests c !! id with
    | Some r =>
        let original := config r in
        if is_401 status && negb (_retry original) then
          if isRefreshing c then
            (AwaitQueue, set_pendingRequests (pendingRequests c ++ [id]) c)
          else
            let c := set_requests (<[id := mkRequest (set_retry original) (phase r)]> (requests c)) c in
            match refreshAccessToken id c with
            | (Posted, c) => (AwaitRefresh, c)
            | (Thrown, c) => catch_refresh error c
            end
        else (Reject error, c)
    | None =>
        if is_401 status then (TypeError, c) else (Reject error, c)
    end.

End ClientDev.

(** ** The auth provider that reads the client's tokens, and its route *)
Module AuthProvider.
Import Client.

(** The two [useState] cells of the provider. *)
Record AuthState := mkAuth {
  loading : bool;
  isAuthed : bool
}.

Definition initial : AuthState := mkAuth true false.

(** [!!x] on what a getter returns: null and the empty string are false. *)
Definition has (x : option string) : bool :=
  match x with
  | Some s => truthy s
  | None => false
  end.

(** The mount effect. *)
Definition mount (ls : Storage) (st : AuthState) : AuthState :=
  mkAuth false (has (getAccessToken ls) && has (getRefreshToken ls)).

(** [login]: [None] is a rejected POST, which throws before anything is
    written; [Some data] is its answer. The boolean tells whether the
    call returned. *)
Definition login (answer : option PartialJwtPair) (ls : Storage) (st : AuthState)
    : Storage * AuthState * bool :=
  match answer with
  | Some data => (setTokens data ls, mkAuth (loading st) true, true)
  | None => (ls, st, false)
  end.

(** [logout]: the new storage, the new state, the new location. *)
Definition logout (ls : Storage) (st : AuthState) : Storage * AuthState * string :=
  (clearTokens ls, mkAuth (loading st) false, "/login").

End AuthProvider.

Module ProtectedRoute.

Inductive View :=
| LoadingView          (* the "Loading…" placeholder *)
| Navigate (to : string)
| Children.

Definition render (st : AuthProvider.AuthState) : View :=
  if AuthProvider.loading st then LoadingView
  else if negb (AuthProvider.isAuthed st) then Navigate "/login"
  else Children.

End ProtectedRoute.

(** ** The auth provider with the [AUTH_DISABLED] switch, and its route *)
Module AuthProviderDev.
Import Client.

(** The mount effect: the new [isAuthenticated]. *)
Definition mount (AUTH_DISABLED : bool) (ls : Storage) : bool :=
  if AUTH_DISABLED then true
  else AuthProvider.has (getItem "access" ls).

(** [login]: the storage is not written in either mode. *)
Definition login (AUTH_DISABLED : bool) (ls : Storage) : Storage * bool :=
  if AUTH_DISABLED then (ls, true) else (ls, true).

Definition logout (AUTH_DISABLED : bool) (ls : Storage) : Storage * bool :=
  let ls :=
    if negb AUTH_DISABLED then removeItem "refresh" (removeItem "access" ls)
    else ls in
  (ls, false).

(** routes/ProtectedRoute.tsx *)
Definition render (isAuthDisabled isAuthenticated : bool) : ProtectedRoute.View :=
  if isAuthDisabled then ProtectedRoute.Children
  else if isAuthenticated then ProtectedRoute.Children
  else ProtectedRoute.Navigate "/login".

End AuthProviderDev.

(** ** The Daily Review page around [load] *)
Module DailyReviewPage.
Import Types.

(** The [blocks] and [busy] cells; [None] is the initial [null]. *)
Record Page := mkPage {
  blocks : option (list BlockDto);
  busy : bool
}.

(** What a fetch ends in. *)
Inductive Fetched :=
| Ok (data : list BlockDto)
| Failed.

(** [load] from the answers to its two requests. It gives the page, the
    routes requested in order, and whether it threw. The second request
    is made only when the first has been answered. *)
Definition load (blocksToday suggestionsToday : Fetched) (p : Page)
    : Page * list string * bool :=
  match blocksToday with
  | Ok b =>
      match suggestionsToday with
      | Ok withSug =>
          (mkPage (Some (DailyReview.load b withSug)) false,
           ["/api/blocks-today/"; "/api/suggestions-today/"], false)
      | Failed =>
          (mkPage (blocks p) false,
           ["/api/blocks-today/"; "/api/suggestions-today/"], true)
      end
  | Failed => (mkPage (blocks p) false, ["/api/blocks-today/"], true)
  end.

(** [blocks?.reduce((acc, b) => acc + b.minutes, 0) ?? 0] *)
Definition totalMinutes (blocks : option (list BlockDto)) : Z :=
  match blocks with
  | Some bs => foldl (λ acc b, acc + minutes b) 0 bs
  | None => 0
  end.

(** [blocks?.length ?? 0] *)
Definition count (blocks : option (list BlockDto)) : nat :=
  match blocks with
  | Some bs => length bs
  | None => 0%nat
  end.

(** [!blocks?.length && !busy]: whether "No blocks yet today." shows. *)
Definition shows_empty (p : Page) : bool :=
  match blocks p with
  | Some (_ :: _) => false
  | _ => negb (busy p)
  end.

(** What of a block the merge cannot change: everything but its
    suggestions. *)
Definition core_fields (x : BlockDto) :=
  (id x, start x, end_ x, minutes x, title x, url x, file_path x,
   client x, project x, task x, notes x).

End DailyReviewPage.

(** ** The block card around [apply] *)
Module BlockCardView.
Import Types.

(** The cells of a card when it is first rendered for [block]. *)
Definition initial (block : BlockDto) : BlockCard.Card :=
  BlockCard.mkCard block
    (default "" (client block))
    (default "" (project block))
    (default "" (task block))
    (default "" (notes block))
    false client_label "".

(** [Array.prototype.join] *)
Fixpoint join (sep : string) (l : list string) : string :=
  match l with
  | [] => ""
  | [x] => x
  | x :: rest => x ++ sep ++ join sep rest
  end.

(** The line under the time range: the non-empty ones of title, url and
    file path, joined. *)
Definition meta (block : BlockDto) : string :=
  join " • "
    (filter (λ s, truthy s = true)
       [default "" (title block); default "" (url block); default "" (file_path block)]).

(** What a label input of a fresh card submits: the block's label when
    it has a non-empty one. *)
Definition kept (label : option string) : option string :=
  match label with
  | Some s => if truthy s then Some s else None
  | None => None
  end.

End BlockCardView.

(** ** The login page *)
Module LoginPage.




End LoginPage.

(* ===================================================================== *)
(** * Part II: lemmas and theorems                                        *)
(* ===================================================================== *)

Lemma truthy_true (s : string) : truthy s = true ↔ s ≠ "".
Proof. destruct s; simpl; split; intros; congruence. Qed.

Lemma truthy_false (s : string) : truthy s = false ↔ s = "".
Proof. destruct s; simpl; split; intros; congruence. Qed.

(** ** Token storage *)
Module TokenFacts.
Import Client.

Lemma keys_differ : ACCESS_KEY ≠ REFRESH_KEY.
Proof. discriminate. Qed.

Lemma setTokens_access_only (a : string) (ls : Storage) (k : string) :
  k ≠ ACCESS_KEY → setTokens (mkTokens (Some a) None) ls !! k = ls !! k.
Proof.
  intros Ha. unfold setTokens, setItem. simpl.
  case_match; rewrite ?lookup_insert_ne by done; done.
Qed.

Lemma setTokens_access_value (a : string) (ls : Storage) :
  getAccessToken (setTokens (mkTokens (Some a) None) ls)
  = if truthy a then Some a else getAccessToken ls.
Proof.
  unfold setTokens, getAccessToken, getItem, setItem. simpl.
  destruct (truthy a); [apply lookup_insert_eq | done].
Qed.

Lemma setTokens_wf (tokens : PartialJwtPair) (ls : Storage) :
  tokens_wf ls → tokens_wf (setTokens tokens ls).
Proof.
  intros [Ha Hr]. pose proof keys_differ as Hk.
  unfold tokens_wf, setTokens, getAccessToken, getRefreshToken, getItem, setItem in *.
  destruct (access tokens) as [a|], (refresh tokens) as [r|];
    try destruct (truthy a) eqn:Ta; try destruct (truthy r) eqn:Tr;
    rewrite ?lookup_insert_eq, ?(lookup_insert_ne _ REFRESH_KEY ACCESS_KEY),
      ?(lookup_insert_ne _ ACCESS_KEY REFRESH_KEY), ?lookup_insert_eq by done;
    split; try done; intros [= ->]; simpl in *; congruence.
Qed.

Lemma clearTokens_access (ls : Storage) : getAccessToken (clearTokens ls) = None.
Proof.
  unfold getAccessToken, clearTokens, getItem, removeItem.
  rewrite lookup_delete_ne by (symmetry; apply keys_differ).
  apply lookup_delete_eq.
Qed.

Lemma clearTokens_refresh (ls : Storage) : getRefreshToken (clearTokens ls) = None.
Proof.
  unfold getRefreshToken, clearTokens, getItem, removeItem.
  apply lookup_delete_eq.
Qed.

Lemma clearTokens_wf (ls : Storage) : tokens_wf (clearTokens ls).
Proof.
  split; [rewrite clearTokens_access | rewrite clearTokens_refresh]; done.
Qed.

Lemma empty_wf : tokens_wf ∅.
Proof. split; done. Qed.

(** C9, as amended: for every pair of non-empty token strings, after
    [setTokens({access, refresh})] the two getters return exactly those
    strings; after [clearTokens] both getters return null; and
    [setTokens] with a missing or empty field leaves the stored token of
    that field unchanged. *)
Theorem setTokens_round_trip (a r : string) (ls : Storage) :
  a ≠ "" → r ≠ "" →
  (getAccessToken (setTokens (mkTokens (Some a) (Some r)) ls) = Some a
   ∧ getRefreshToken (setTokens (mkTokens (Some a) (Some r)) ls) = Some r)
  ∧ (getAccessToken (clearTokens ls) = None
     ∧ getRefreshToken (clearTokens ls) = None)
  ∧ (getRefreshToken (setTokens (mkTokens (Some a) None) ls) = getRefreshToken ls
     ∧ getAccessToken (setTokens (mkTokens None (Some r)) ls) = getAccessToken ls
     ∧ setTokens (mkTokens None None) ls = ls
     ∧ setTokens (mkTokens (Some "") (Some "")) ls = ls).
Proof.
  intros Ha Hr. apply truthy_true in Ha, Hr. pose proof keys_differ as Hk.
  unfold setTokens, getAccessToken, getRefreshToken, getItem, setItem. simpl.
  rewrite Ha, Hr. repeat split.
  - rewrite lookup_insert_ne by done. apply lookup_insert_eq.
  - apply lookup_insert_eq.
  - apply clearTokens_access.
  - apply clearTokens_refresh.
  - by rewrite lookup_insert_ne.
  - by rewrite lookup_insert_ne.
Qed.

Lemma setTokens_round_trip_witness :
  getAccessToken (setTokens (mkTokens (Some "a1") (Some "r1")) ∅) = Some "a1"
  ∧ getRefreshToken (setTokens (mkTokens (Some "a1") (Some "r1")) ∅) = Some "r1".
Proof.
  refine (proj1 (setTokens_round_trip "a1" "r1" ∅ _ _)); discriminate.
Defined.

(** C9 as stated fails: for the pair whose access string is empty,
    [setTokens] stores no access token and the getter returns null. *)
Lemma setTokens_round_trip_fails_on_empty :
  ¬ (∀ (a r : string) (ls : Storage),
       getAccessToken (setTokens (mkTokens (Some a) (Some r)) ls) = Some a
       ∧ getRefreshToken (setTokens (mkTokens (Some a) (Some r)) ls) = Some r).
Proof.
  intros H. destruct (H "" "r1" ∅) as [Ha _].
  vm_compute in Ha. discriminate.
Qed.

End TokenFacts.

(** ** The refresh protocol: frame lemmas *)
Module ClientFacts.
Import Client TokenFacts.

Lemma authorization_set (v : string) (cfg : AxiosRequestConfig) :
  authorization (set_Authorization v cfg) = Some v.
Proof. unfold authorization, set_Authorization. simpl. apply lookup_insert_eq. Qed.

Lemma request_interceptor_token (ls : Storage) (cfg : AxiosRequestConfig) (token : string) :
  getAccessToken ls = Some token → token ≠ "" →
  request_interceptor ls cfg = set_Authorization ("Bearer " ++ token) cfg.
Proof.
  intros Hg Ht. apply truthy_true in Ht.
  unfold request_interceptor. by rewrite Hg, Ht.
Qed.

Lemma request_interceptor_none (ls : Storage) (cfg : AxiosRequestConfig) :
  getAccessToken ls = None → request_interceptor ls cfg = cfg.
Proof. intros Hg. unfold request_interceptor. by rewrite Hg. Qed.

Lemma request_interceptor_retry (ls : Storage) (cfg : AxiosRequestConfig) :
  _retry (request_interceptor ls cfg) = _retry cfg.
Proof. unfold request_interceptor. repeat case_match; done. Qed.

Lemma retry_original_known (id : ReqId) (c : State) (r : Request) :
  requests c !! id = Some r →
  retry_original id c = api id (request_interceptor (localStorage c) (config r)) c.
Proof. intros Hr. unfold retry_original, request_interceptor. by rewrite Hr. Qed.

Lemma retry_original_unknown (id : ReqId) (c : State) :
  requests c !! id = None → retry_original id c = c.
Proof. intros Hr. unfold retry_original. by rewrite Hr. Qed.

(** Re-sending a request touches nothing of the module state. *)
Lemma retry_original_frame (id : ReqId) (c : State) :
  localStorage (retry_original id c) = localStorage c
  ∧ isRefreshing (retry_original id c) = isRefreshing c
  ∧ pendingRequests (retry_original id c) = pendingRequests c
  ∧ location_href (retry_original id c) = location_href c
  ∧ refreshPosts (retry_original id c) = refreshPosts c.
Proof. unfold retry_original. destruct (requests c !! id); done. Qed.

Lemma retry_original_other (id j : ReqId) (c : State) :
  j ≠ id → requests (retry_original id c) !! j = requests c !! j.
Proof.
  intros Hj. unfold retry_original. destruct (requests c !! id); [|done].
  simpl. by rewrite lookup_insert_ne.
Qed.

Lemma retry_original_self (id : ReqId) (c : State) (r : Request) :
  requests c !! id = Some r →
  requests (retry_original id c) !! id
  = Some (mkRequest (resent_config (localStorage c) (config r)) InFlight).
Proof.
  intros Hr. rewrite (retry_original_known _ _ _ Hr). simpl.
  by rewrite lookup_insert_eq.
Qed.

Lemma retry_original_wire (id : ReqId) (c : State) (r : Request) :
  requests c !! id = Some r →
  wire (retry_original id c)
  = (wire c ++ [(id, resent_config (localStorage c) (config r))])%list.
Proof. intros Hr. by rewrite (retry_original_known _ _ _ Hr). Qed.

Lemma retry_original_keeps_known (id j : ReqId) (c : State) :
  is_Some (requests c !! j) → is_Some (requests (retry_original id c) !! j).
Proof.
  intros Hj. destruct (decide (j = id)) as [->|Hne].
  - destruct Hj as [r Hr]. rewrite (retry_original_self _ _ _ Hr). eauto.
  - by rewrite retry_original_other.
Qed.

Lemma release_frame (l : list ReqId) (c : State) :
  localStorage (release l c) = localStorage c
  ∧ isRefreshing (release l c) = isRefreshing c
  ∧ pendingRequests (release l c) = pendingRequests c
  ∧ location_href (release l c) = location_href c
  ∧ refreshPosts (release l c) = refreshPosts c.
Proof.
  revert c. induction l as [|id l IH]; intros c; [done|].
  simpl. destruct (IH (retry_original id c)) as (-> & -> & -> & -> & ->).
  apply retry_original_frame.
Qed.

Lemma release_other (l : list ReqId) (j : ReqId) (c : State) :
  j ∉ l → requests (release l c) !! j = requests c !! j.
Proof.
  revert c. induction l as [|id l IH]; intros c Hj; [done|].
  apply not_elem_of_cons in Hj as [Hne Hj]. simpl.
  rewrite IH by done. by apply retry_original_other.
Qed.

Lemma release_keeps_known (l : list ReqId) (j : ReqId) (c : State) :
  is_Some (requests c !! j) → is_Some (requests (release l c) !! j).
Proof.
  revert c. induction l as [|id l IH]; intros c Hj; [done|].
  simpl. apply IH. by apply retry_original_keeps_known.
Qed.

(** Every released waiter the map knows is in flight afterwards, with a
    config the request interceptor has run on under the storage of the
    moment. *)
Lemma release_self (l : list ReqId) (w : ReqId) (c : State) :
  w ∈ l → is_Some (requests c !! w) →
  ∃ cfg, requests (release l c) !! w
         = Some (mkRequest (resent_config (localStorage c) cfg) InFlight).
Proof.
  revert c. induction l as [|id l IH]; intros c Hw Hk; [by apply elem_of_nil in Hw|].
  simpl. destruct (decide (w ∈ l)) as [Hin|Hnin].
  - destruct (IH (retry_original id c) Hin) as [cfg Hcfg].
    { by apply retry_original_keeps_known. }
    exists cfg. rewrite Hcfg.
    by destruct (retry_original_frame id c) as (-> & _).
  - apply elem_of_cons in Hw as [->|?]; [|done].
    destruct Hk as [r Hr]. exists (config r).
    rewrite release_other by done. by apply retry_original_self.
Qed.

(** The transmissions a release adds: one per waiter, in queue order,
    each with a config the request interceptor has run on. *)
Lemma release_wire (l : list ReqId) (c : State) :
  (∀ w, w ∈ l → is_Some (requests c !! w)) →
  ∃ sent, wire (release l c) = (wire c ++ sent)%list
          ∧ sent.*1 = l
          ∧ ∀ p, p ∈ sent → ∃ cfg, p.2 = resent_config (localStorage c) cfg.
Proof.
  revert c. induction l as [|id l IH]; intros c Hk.
  - exists []. simpl. rewrite app_nil_r. split_and!; [done..|].
    intros p Hp. by apply elem_of_nil in Hp.
  - destruct (Hk id) as [r Hr]; [left|].
    destruct (IH (retry_original id c)) as (sent & Hw & Hids & Hcfg).
    { intros w Hw. apply retry_original_keeps_known, Hk. by right. }
    exists ((id, resent_config (localStorage c) (config r)) :: sent).
    change (release (id :: l) c) with (release l (retry_original id c)).
    rewrite Hw, (retry_original_wire _ _ _ Hr), <- app_assoc, fmap_cons, Hids.
    split_and!; [done..|].
    intros p [->|Hp]%elem_of_cons; [by eexists|].
    destruct (Hcfg p Hp) as [cfg ->]. exists cfg.
    by destruct (retry_original_frame id c) as (-> & _).
Qed.

Lemma run_finally_release (c : State) :
  run_finally c
  = release (pendingRequests c) (set_pendingRequests [] (set_isRefreshing false c)).
Proof. done. Qed.

Lemma run_finally_frame (c : State) :
  localStorage (run_finally c) = localStorage c
  ∧ isRefreshing (run_finally c) = false
  ∧ pendingRequests (run_finally c) = []
  ∧ location_href (run_finally c) = location_href c
  ∧ refreshPosts (run_finally c) = refreshPosts c.
Proof.
  rewrite run_finally_release.
  by destruct (release_frame (pendingRequests c)
                 (set_pendingRequests [] (set_isRefreshing false c)))
    as (-> & -> & -> & -> & ->).
Qed.

Lemma set_phase_frame (id : ReqId) (p : Phase) (c : State) :
  localStorage (set_phase id p c) = localStorage c
  ∧ isRefreshing (set_phase id p c) = isRefreshing c
  ∧ pendingRequests (set_phase id p c) = pendingRequests c
  ∧ location_href (set_phase id p c) = location_href c
  ∧ refreshPosts (set_phase id p c) = refreshPosts c
  ∧ wire (set_phase id p c) = wire c.
Proof. unfold set_phase. destruct (requests c !! id); done. Qed.

Lemma set_phase_self (id : ReqId) (p : Phase) (c : State) (r : Request) :
  requests c !! id = Some r →
  requests (set_phase id p c) !! id = Some (mkRequest (config r) p).
Proof. intros Hr. unfold set_phase. rewrite Hr. simpl. apply lookup_insert_eq. Qed.

Lemma set_phase_other (id j : ReqId) (p : Phase) (c : State) :
  j ≠ id → requests (set_phase id p c) !! j = requests c !! j.
Proof.
  intros Hj. unfold set_phase. destruct (requests c !! id); [|done].
  simpl. by rewrite lookup_insert_ne.
Qed.

(** ** The invariant *)

(** With the flag down, nothing queued and no POST out, the invariant
    asks for well-formed tokens only. *)
Lemma Inv_quiet (c : State) :
  tokens_wf (localStorage c) → isRefreshing c = false →
  pendingRequests c = [] → refreshPosts c = [] → Inv c.
Proof.
  intros Ht Hf Hp Hr. split; try done.
  - rewrite Hf, Hr. symmetry. apply bool_decide_eq_false. by intros H.
  - rewrite Hr. simpl. lia.
  - intros id. rewrite Hp. by intros ?%elem_of_nil.
  - intros id. rewrite Hr. by intros ?%elem_of_nil.
Qed.

Lemma Inv_init (ls : Storage) : tokens_wf ls → Inv (init ls).
Proof. intros Hls. by apply Inv_quiet. Qed.

Lemma Inv_flag_down (c : State) :
  Inv c → isRefreshing c = false → refreshPosts c = [] ∧ pendingRequests c = [].
Proof.
  intros HI Hf. split; [|by apply HI].
  destruct HI as [_ Hflag _ _ _ _]. rewrite Hf in Hflag.
  symmetry in Hflag. apply bool_decide_eq_false in Hflag.
  destruct (refreshPosts c); [done|]. exfalso. by apply Hflag.
Qed.

Lemma Inv_flag_up (c : State) :
  Inv c → isRefreshing c = true ↔ refreshPosts c ≠ [].
Proof.
  intros [_ Hflag _ _ _ _]. rewrite Hflag. apply bool_decide_eq_true.
Qed.

(** The one POST of a state that has one. *)
Lemma Inv_the_post (c : State) (id : ReqId) :
  Inv c → id ∈ (refreshPosts c).*1 → ∃ t, refreshPosts c = [(id, t)].
Proof.
  intros [_ _ Hlen _ _ _] Hin.
  destruct (refreshPosts c) as [|[j t] [|q l]]; simpl in *.
  - by apply elem_of_nil in Hin.
  - apply list_elem_of_singleton in Hin as ->. by exists t.
  - lia.
Qed.

Lemma remove_post_single (id : ReqId) (t : string) : remove_post id [(id, t)] = [].
Proof. simpl. by rewrite decide_True. Qed.

(** A handler that is in flight is neither queued nor awaiting the
    refresh. *)
Lemma Inv_inflight_apart (c : State) (id : ReqId) (cfg : AxiosRequestConfig) :
  Inv c → requests c !! id = Some (mkRequest cfg InFlight) →
  (id ∉ pendingRequests c) ∧ (id ∉ (refreshPosts c).*1).
Proof.
  intros HI Hr. split; intros Hin.
  - destruct (inv_queued c HI id Hin) as (? & ? & ?). congruence.
  - destruct (inv_refreshing c HI id Hin) as (? & ? & ?). congruence.
Qed.

Lemma Inv_refreshing_apart (c : State) (id : ReqId) (cfg : AxiosRequestConfig)
    (e : AxiosError) :
  Inv c → requests c !! id = Some (mkRequest cfg (Refreshing e)) →
  id ∉ pendingRequests c.
Proof.
  intros HI Hr Hin.
  destruct (inv_queued c HI id Hin) as (? & ? & ?). congruence.
Qed.

(** Changing the phase of a request that is neither queued nor awaiting
    the refresh keeps the invariant. *)
Lemma Inv_set_phase (c : State) (id : ReqId) (p : Phase) :
  Inv c → id ∉ pendingRequests c → id ∉ (refreshPosts c).*1 →
  Inv (set_phase id p c).
Proof.
  intros HI Hq Hr.
  destruct (set_phase_frame id p c) as (Hls & Hf & Hp & _ & Hposts & _).
  destruct HI as [? ? ? ? HQ HR].
  split; rewrite ?Hls, ?Hf, ?Hp, ?Hposts; try done.
  - intros j Hj. rewrite set_phase_other; [by apply HQ|]. by intros ->.
  - intros j Hj. rewrite set_phase_other; [by apply HR|]. by intros ->.
Qed.

(** ** The handler, case by case *)

Lemma onRejected_reject (error : AxiosError) (c : State) :
  err_status error ≠ Some 401
  ∨ (∃ r, requests c !! err_config error = Some r ∧ _retry (config r) = true) →
  onRejected error c = (Reject error, c).
Proof.
  intros H. unfold onRejected.
  assert (is_401 (err_status error) = true → err_status error = Some 401) as H401.
  { unfold is_401. destruct (err_status error) as [s|]; [|done].
    intros ->%Z.eqb_eq. done. }
  destruct H as [Hs|(r & Hr & Hretry)].
  - destruct (is_401 (err_status error)) eqn:E; [by destruct Hs; apply H401|].
    by destruct (requests c !! err_config error).
  - rewrite Hr, Hretry. by rewrite andb_false_r.
Qed.

Lemma onRejected_queue (error : AxiosError) (c : State) (r : Request) :
  requests c !! err_config error = Some r →
  err_status error = Some 401 → _retry (config r) = false → isRefreshing c = true →
  onRejected error c
  = (AwaitQueue, set_pendingRequests (pendingRequests c ++ [err_config error]) c).
Proof.
  intros Hr Hs Hretry Hf. unfold onRejected. by rewrite Hr, Hs, Hretry, Hf.
Qed.

Lemma onRejected_refresh (error : AxiosError) (c : State) (r : Request) :
  requests c !! err_config error = Some r →
  err_status error = Some 401 → _retry (config r) = false → isRefreshing c = false →
  onRejected error c
  = match refreshAccessToken (err_config error)
            (set_requests (<[err_config error := mkRequest (set_retry (config r)) (phase r)]>
                             (requests c)) c) with
    | (Posted, c') => (AwaitRefresh, c')
    | (Thrown, c') => catch_refresh error c'
    end.
Proof.
  intros Hr Hs Hretry Hf. unfold onRejected. by rewrite Hr, Hs, Hretry, Hf.
Qed.

(** The three ways a handler can go, told apart by what it reads. *)
Lemma onRejected_cases (error : AxiosError) (c : State) (r : Request) :
  requests c !! err_config error = Some r →
  (err_status error ≠ Some 401 ∨ _retry (config r) = true)
  ∨ (err_status error = Some 401 ∧ _retry (config r) = false).
Proof.
  intros _. destruct (decide (err_status error = Some 401)), (_retry (config r)); auto.
Qed.

Lemma step_inv (ev : Event) (c c' : State) :
  Inv c → step ev c = Some c' → Inv c'.
Proof.
  intros HI Hstep. destruct ev as [id cfg|id|id status message|id answer|data|]; simpl in Hstep.
  - (* Call *)
    destruct (requests c !! id) eqn:Hid; [done|]. injection Hstep as <-.
    destruct HI as [? ? ? ? HQ HR]. split; simpl; try done.
    + intros j Hj. destruct (HQ j Hj) as (cf & e & Hje).
      rewrite lookup_insert_ne; [eauto|congruence].
    + intros j Hj. destruct (HR j Hj) as (cf & e & Hje).
      rewrite lookup_insert_ne; [eauto|congruence].
  - (* Succeed *)
    destruct (requests c !! id) as [[cfg []]|] eqn:Hid; try done.
    injection Hstep as <-.
    destruct (Inv_inflight_apart c id cfg HI Hid). by apply Inv_set_phase.
  - (* Fail *)
    destruct (requests c !! id) as [[cfg []]|] eqn:Hid; try done.
    injection Hstep as <-.
    destruct (Inv_inflight_apart c id cfg HI Hid) as [Hnq Hnr].
    set (error := mkError id status message).
    destruct (onRejected_cases error c _ Hid) as [Hrej|[Hs Hretry]].
    + rewrite onRejected_reject by (destruct Hrej; eauto). simpl.
      by apply Inv_set_phase.
    + destruct (isRefreshing c) eqn:Hf.
      * rewrite (onRejected_queue error c _ Hid Hs Hretry Hf). simpl.
        destruct HI as [? Hflag ? ? HQ HR]. unfold set_phase. simpl. rewrite Hid.
        split; simpl; try done.
        -- by rewrite Hf.
        -- intros j [Hj| ->%list_elem_of_singleton]%elem_of_app.
           ++ destruct (HQ j Hj) as (cf & e & Hje).
              rewrite lookup_insert_ne; [eauto|congruence].
           ++ rewrite lookup_insert_eq. eauto.
        -- intros j Hj. destruct (HR j Hj) as (cf & e & Hje).
           rewrite lookup_insert_ne; [eauto|congruence].
      * rewrite (onRejected_refresh error c _ Hid Hs Hretry Hf). simpl.
        destruct (Inv_flag_down c HI Hf) as [Hposts Hpend].
        unfold refreshAccessToken. simpl.
        destruct (getRefreshToken (localStorage c)) as [t|] eqn:Ht;
          [destruct (truthy t) eqn:Tt|].
        -- (* the POST goes out *)
           simpl. unfold set_phase. simpl. rewrite lookup_insert_eq. simpl.
           rewrite Hposts. split; simpl; rewrite ?Hpend; try done.
           ++ apply HI.
           ++ intros j Hj. by apply elem_of_nil in Hj.
           ++ intros j ->%list_elem_of_singleton. rewrite lookup_insert_eq. eauto.
        -- (* an empty refresh token: thrown before the POST *)
           unfold run_finally. simpl. rewrite Hpend. simpl.
           unfold set_phase. simpl. rewrite lookup_insert_eq.
           apply Inv_quiet; simpl; try done. apply clearTokens_wf.
        -- (* no refresh token: thrown before the POST *)
           unfold run_finally. simpl. rewrite Hpend. simpl.
           unfold set_phase. simpl. rewrite lookup_insert_eq.
           apply Inv_quiet; simpl; try done. apply clearTokens_wf.
  - (* RefreshAnswer *)
    destruct (requests c !! id) as [[cfg []]|] eqn:Hid; try done.
    destruct (decide (id ∈ (refreshPosts c).*1)) as [Hin|]; [|done].
    destruct (Inv_the_post c id HI Hin) as [t Hposts].
    rewrite Hposts, remove_post_single in Hstep.
    destruct answer as [a|]; simpl in Hstep; injection Hstep as <-.
    + (* the refresh succeeded *)
      set (c1 := set_localStorage _ (set_refreshPosts [] c)).
      destruct (retry_original_frame id (run_finally c1)) as (Hls & Hf & Hp & _ & Hr).
      destruct (run_finally_frame c1) as (Hls' & Hf' & Hp' & _ & Hr').
      apply Inv_quiet.
      * rewrite Hls, Hls'. simpl. apply setTokens_wf, HI.
      * by rewrite Hf, Hf'.
      * by rewrite Hp, Hp'.
      * by rewrite Hr, Hr'.
    + (* the refresh failed *)
      set (c1 := set_refreshPosts [] c).
      match goal with |- Inv (set_phase id ?p ?s) =>
        pose proof (set_phase_frame id p s) as H1 end.
      destruct H1 as (Hls & Hf & Hp & _ & Hr & _). simpl in Hls, Hf, Hp, Hr.
      destruct (run_finally_frame c1) as (Hls' & Hf' & Hp' & _ & Hr').
      apply Inv_quiet.
      * rewrite Hls. apply clearTokens_wf.
      * by rewrite Hf, Hf'.
      * by rewrite Hp, Hp'.
      * by rewrite Hr, Hr'.
  - (* Login *)
    injection Hstep as <-. destruct HI as [? ? ? ? HQ HR].
    split; simpl; try done. by apply setTokens_wf.
  - (* Logout *)
    injection Hstep as <-. destruct HI as [? ? ? ? HQ HR].
    split; simpl; try done. apply clearTokens_wf.
Qed.

Lemma reachable_Inv (c : State) : reachable c → Inv c.
Proof.
  induction 1 as [ls Hls|ev c c' _ IH Hstep]; [by apply Inv_init|].
  by apply (step_inv ev c).
Qed.

Lemma exec_reachable (evs : list Event) (c c' : State) :
  reachable c → exec evs c = Some c' → reachable c'.
Proof.
  revert c. induction evs as [|ev evs IH]; intros c Hc Hexec; simpl in Hexec.
  - congruence.
  - destruct (step ev c) as [c1|] eqn:Hstep; [|done].
    apply (IH c1); [|done]. by apply (reachable_step ev c).
Qed.

Lemma reachable_login (data : PartialJwtPair) :
  reachable (set_localStorage (setTokens data ∅) (init ∅)).
Proof.
  apply (reachable_step (Login data) (init ∅)); [|done].
  apply reachable_init, empty_wf.
Qed.

(** ** The request interceptor *)

(** C6: in every state the client can be in, a request sent through
    [api] goes out with the header [Authorization] equal to "Bearer "
    followed by exactly the stored access token when one is stored, and
    with its config as the caller gave it when none is stored. *)
Theorem request_carries_bearer (c : State) (id : ReqId) (cfg : AxiosRequestConfig) :
  reachable c →
  (∀ token, getAccessToken (localStorage c) = Some token →
     request_interceptor (localStorage c) cfg
     = set_Authorization ("Bearer " ++ token) cfg
     ∧ authorization (request_interceptor (localStorage c) cfg)
       = Some ("Bearer " ++ token)
     ∧ wire (api id cfg c)
       = (wire c ++ [(id, set_Authorization ("Bearer " ++ token) cfg)])%list)
  ∧ (getAccessToken (localStorage c) = None →
     request_interceptor (localStorage c) cfg = cfg
     ∧ wire (api id cfg c) = (wire c ++ [(id, cfg)])%list).
Proof.
  intros Hc. apply reachable_Inv in Hc. destruct Hc as [[Hwf _] _ _ _ _ _].
  split.
  - intros token Htok.
    assert (token ≠ "") as Hne by (intros ->; done).
    unfold api. simpl.
    rewrite (request_interceptor_token _ _ _ Htok Hne).
    by rewrite authorization_set.
  - intros Hnone. unfold api. simpl.
    by rewrite (request_interceptor_none _ _ Hnone).
Qed.

Lemma request_carries_bearer_witness :
  reachable (set_localStorage (setTokens (mkTokens (Some "tok") (Some "ref")) ∅) (init ∅))
  ∧ authorization
      (request_interceptor (setTokens (mkTokens (Some "tok") (Some "ref")) ∅)
         (mkConfig "/api/blocks-today/" None false))
    = Some "Bearer tok".
Proof.
  split; [apply reachable_login|].
  refine (proj1 (proj2 (proj1
    (request_carries_bearer
       (set_localStorage (setTokens (mkTokens (Some "tok") (Some "ref")) ∅) (init ∅))
       1%nat (mkConfig "/api/blocks-today/" None false)
       (reachable_login _)) "tok" _))).
  reflexivity.
Defined.

(** ** [refreshAccessToken] and the stored tokens *)

Lemma refreshAccessToken_storage (caller : ReqId) (c : State) :
  localStorage (refreshAccessToken caller c).2 = localStorage c.
Proof.
  unfold refreshAccessToken. simpl.
  destruct (getRefreshToken (localStorage c)) as [t|]; [destruct (truthy t)|]; simpl;
    try done;
    by destruct (run_finally_frame (set_isRefreshing true c)) as (-> & _).
Qed.

Lemma refreshAccessToken_resume_storage (answer : option string) (c : State) :
  localStorage (refreshAccessToken_resume answer c).2
  = match answer with
    | Some a => setTokens (mkTokens (Some a) None) (localStorage c)
    | None => localStorage c
    end.
Proof.
  destruct answer as [a|]; simpl.
  - match goal with |- context [run_finally ?s] =>
      by destruct (run_finally_frame s) as (-> & _) end.
  - by destruct (run_finally_frame c) as (-> & _).
Qed.

(** C8: [refreshAccessToken] leaves every key of the storage other
    than the access token as it was, the refresh token among them, on
    its way to the POST and on its way back from it, whatever the
    answer; a successful refresh stores the access token it was given
    (and stores nothing when that is empty). *)
Theorem refresh_overwrites_access_only (caller : ReqId) (answer : option string) (c : State) :
  localStorage (refreshAccessToken caller c).2 = localStorage c
  ∧ (∀ k, k ≠ ACCESS_KEY →
       localStorage (refreshAccessToken_resume answer c).2 !! k = localStorage c !! k)
  ∧ getRefreshToken (localStorage (refreshAccessToken_resume answer c).2)
    = getRefreshToken (localStorage c)
  ∧ (∀ a, getAccessToken (localStorage (refreshAccessToken_resume (Some a) c).2)
          = if truthy a then Some a else getAccessToken (localStorage c)).
Proof.
  split_and!.
  - apply refreshAccessToken_storage.
  - intros k Hk. rewrite refreshAccessToken_resume_storage.
    destruct answer; [by apply setTokens_access_only|done].
  - rewrite refreshAccessToken_resume_storage. unfold getRefreshToken, getItem.
    destruct answer; [|done].
    apply setTokens_access_only. symmetry. apply keys_differ.
  - intros a. rewrite refreshAccessToken_resume_storage. apply setTokens_access_value.
Qed.

(** ** Errors the handler passes through *)



(** ** Single flight *)

(** A 401 on a request not yet retried, seen while a refresh POST is
    out, queues the handler and posts nothing. *)
Lemma step_Fail_queued (c : State) (id : ReqId) (cfg : AxiosRequestConfig)
    (message : string) :
  Inv c → refreshPosts c ≠ [] →
  requests c !! id = Some (mkRequest cfg InFlight) → _retry cfg = false →
  step (Fail id (Some 401) message) c
  = Some (set_phase id (Queued (mkError id (Some 401) message))
            (set_pendingRequests (pendingRequests c ++ [id]) c)).
Proof.
  intros HI Hposts Hid Hretry. apply (Inv_flag_up c HI) in Hposts.
  simpl. rewrite Hid.
  by rewrite (onRejected_queue (mkError id (Some 401) message) c _ Hid).
Qed.

(** A queued handler stays queued, and the refresh POST stays out, under
    every event but the answer to the POST. *)
Lemma step_keeps_queued (c c' : State) (ev : Event) (id : ReqId) :
  Inv c → id ∈ pendingRequests c → step ev c = Some c' →
  (∀ i a, ev ≠ RefreshAnswer i a) →
  id ∈ pendingRequests c' ∧ refreshPosts c' = refreshPosts c.
Proof.
  intros HI Hin Hstep Hev.
  assert (isRefreshing c = true) as Hup.
  { destruct (isRefreshing c) eqn:Hf; [done|].
    destruct (Inv_flag_down c HI Hf) as [_ Hp]. rewrite Hp in Hin.
    by apply elem_of_nil in Hin. }
  destruct ev as [j cfg|j|j status message|j answer|data|]; simpl in Hstep.
  - destruct (requests c !! j); [done|]. by injection Hstep as <-.
  - destruct (requests c !! j) as [[cfg []]|]; try done. injection Hstep as <-.
    by destruct (set_phase_frame j Fulfilled c) as (_ & _ & -> & _ & -> & _).
  - destruct (requests c !! j) as [[cfg []]|] eqn:Hj; try done. injection Hstep as <-.
    set (error := mkError j status message).
    destruct (onRejected_cases error c _ Hj) as [Hrej|[Hs Hretry]].
    + rewrite onRejected_reject by (destruct Hrej; eauto). simpl.
      by destruct (set_phase_frame j (Rejected error) c) as (_ & _ & -> & _ & -> & _).
    + rewrite (onRejected_queue error c _ Hj Hs Hretry Hup). simpl.
      match goal with |- context [set_phase j ?p ?s] =>
        pose proof (set_phase_frame j p s) as Hfr end.
      destruct Hfr as (_ & _ & -> & _ & -> & _). simpl.
      split; [|done]. apply elem_of_app. by left.
  - by destruct (Hev j answer).
  - by injection Hstep as <-.
  - by injection Hstep as <-.
Qed.

(** The answer to the refresh POST empties the queue and the POST list. *)
Lemma step_RefreshAnswer_quiet (c c' : State) (id : ReqId) (answer : option string) :
  Inv c → step (RefreshAnswer id answer) c = Some c' →
  isRefreshing c' = false ∧ pendingRequests c' = [] ∧ refreshPosts c' = [].
Proof.
  intros HI Hstep. simpl in Hstep.
  destruct (requests c !! id) as [[cfg []]|] eqn:Hid; try done.
  destruct (decide (id ∈ (refreshPosts c).*1)) as [Hin|]; [|done].
  destruct (Inv_the_post c id HI Hin) as [t Hposts].
  rewrite Hposts, remove_post_single in Hstep.
  destruct answer as [a|]; simpl in Hstep; injection Hstep as <-.
  - set (c1 := set_localStorage _ (set_refreshPosts [] c)).
    destruct (retry_original_frame id (run_finally c1)) as (_ & -> & -> & _ & ->).
    by destruct (run_finally_frame c1) as (_ & -> & -> & _ & ->).
  - set (c1 := set_refreshPosts [] c).
    match goal with |- context [set_phase id ?p ?s] =>
      pose proof (set_phase_frame id p s) as Hfr end.
    destruct Hfr as (_ & -> & -> & _ & -> & _). simpl.
    by destruct (run_finally_frame c1) as (_ & -> & -> & _ & ->).
Qed.

(** C1, as amended: in every state the client can be in, at most one
    refresh POST is unanswered. While one is, a 401 on a request that is
    not yet marked as retried starts no second refresh and sends
    nothing: its handler is queued. A queued handler stays queued, with
    the same POST out, whatever else happens, until the POST is
    answered; the answer empties the queue. *)
Theorem single_flight_refresh (c : State) :
  reachable c →
  (length (refreshPosts c) ≤ 1)%nat
  ∧ (∀ id cfg message,
       refreshPosts c ≠ [] →
       requests c !! id = Some (mkRequest cfg InFlight) → _retry cfg = false →
       ∃ c', step (Fail id (Some 401) message) c = Some c'
             ∧ refreshPosts c' = refreshPosts c
             ∧ id ∈ pendingRequests c'
             ∧ requests c' !! id
               = Some (mkRequest cfg (Queued (mkError id (Some 401) message)))
             ∧ wire c' = wire c)
  ∧ (∀ id ev c',
       id ∈ pendingRequests c → step ev c = Some c' →
       (∀ i a, ev ≠ RefreshAnswer i a) →
       id ∈ pendingRequests c' ∧ refreshPosts c' = refreshPosts c)
  ∧ (∀ id answer c',
       step (RefreshAnswer id answer) c = Some c' →
       pendingRequests c' = [] ∧ refreshPosts c' = []).
Proof.
  intros Hc. pose proof (reachable_Inv c Hc) as HI. split_and!.
  - apply HI.
  - intros id cfg message Hposts Hid Hretry.
    eexists. split; [exact (step_Fail_queued c id cfg message HI Hposts Hid Hretry)|].
    match goal with |- context [set_phase id ?p ?s] =>
      pose proof (set_phase_frame id p s) as Hfr;
      pose proof (set_phase_self id p s (mkRequest cfg InFlight) Hid) as Hself end.
    destruct Hfr as (_ & _ & -> & _ & -> & ->). rewrite Hself. simpl.
    split_and!; try done. apply elem_of_app. right. by left.
  - intros id ev c' Hin Hstep Hev. by apply (step_keeps_queued c c' ev id).
  - intros id answer c' Hstep.
    by destruct (step_RefreshAnswer_quiet c c' id answer HI Hstep) as (_ & ? & ?).
Qed.

Import Scenarios.

Lemma state_after_reachable (evs : list Event) : reachable (state_after evs).
Proof.
  unfold state_after. destruct (exec evs (init ∅)) as [c|] eqn:Hexec; simpl.
  - apply (exec_reachable evs (init ∅)); [|done]. apply reachable_init, empty_wf.
  - apply reachable_init, empty_wf.
Qed.

Lemma single_flight_refresh_witness :
  reachable (state_after refresh_out)
  ∧ (length (refreshPosts (state_after refresh_out)) ≤ 1)%nat
  ∧ ∃ c', step (Fail 2%nat (Some 401) "Unauthorized") (state_after refresh_out) = Some c'
          ∧ refreshPosts c' = refreshPosts (state_after refresh_out)
          ∧ 2%nat ∈ pendingRequests c'.
Proof.
  destruct (single_flight_refresh _ (state_after_reachable refresh_out))
    as (Hone & Hqueue & _).
  split_and!; [apply state_after_reachable|exact Hone|].
  destruct (Hqueue 2%nat (set_Authorization "Bearer a0" (fresh "/api/suggestions-today/"))
              "Unauthorized") as (c' & Hstep & Hposts & Hin & _).
  - vm_compute. discriminate.
  - vm_compute. reflexivity.
  - reflexivity.
  - exists c'. by split_and!.
Defined.

(** C1 as stated fails for a request that is already marked as
    retried: request 1 is in flight again after its retry when request 2
    starts the next refresh; a 401 on request 1 then rejects it, and
    nothing is queued. *)
Lemma retried_request_is_not_queued :
  ¬ (∀ c id cfg message,
       reachable c → refreshPosts c ≠ [] →
       requests c !! id = Some (mkRequest cfg InFlight) →
       ∃ c', step (Fail id (Some 401) message) c = Some c'
             ∧ id ∈ pendingRequests c').
Proof.
  intros H.
  destruct (H (state_after retried_during_refresh) 1%nat
              (set_retry (set_Authorization "Bearer a1" (fresh "/api/blocks-today/")))
              "Unauthorized" (state_after_reachable _)) as (c' & Hstep & Hin).
  - vm_compute. discriminate.
  - vm_compute. reflexivity.
  - vm_compute in Hstep. injection Hstep as <-. simpl in Hin.
    by apply elem_of_nil in Hin.
Qed.

(** ** Retries *)

(** C3 fails on the run [queued_twice]: request 2 is queued behind the
    refresh request 1 started, is re-sent when that refresh succeeds, is
    answered 401 again, starts a refresh of its own and is re-sent a
    second time. It goes out three times, each time with the access
    token of the moment. *)
Theorem queued_request_is_sent_three_times :
  ∃ c, exec queued_twice (init ∅) = Some c
       ∧ reachable c
       ∧ transmissions 2%nat c = 3%nat
       ∧ authorization <$> (filter (λ p, p.1 = 2%nat) (wire c)).*2
         = [Some "Bearer a0"; Some "Bearer a1"; Some "Bearer a2"].
Proof.
  destruct (exec queued_twice (init ∅)) as [c|] eqn:Hexec; [|by vm_compute in Hexec].
  exists c. split; [done|]. split.
  { apply (exec_reachable queued_twice (init ∅)); [|done].
    apply reachable_init, empty_wf. }
  vm_compute in Hexec. injection Hexec as <-. split; vm_compute; reflexivity.
Qed.

(** ** What the answer to the refresh POST does *)

Lemma resent_config_token (ls : Storage) (cfg : AxiosRequestConfig) (a : string) :
  getAccessToken ls = Some a → a ≠ "" →
  authorization (resent_config ls cfg) = Some ("Bearer " ++ a).
Proof.
  intros Ha Hne. unfold resent_config.
  rewrite (request_interceptor_token ls _ a Ha Hne). apply authorization_set.
Qed.

(** axios may run the request interceptor of a re-sent request only
    after the [catch] block has cleared the tokens. The config that goes
    out is the same: lines 86-90 have set the header already. *)
Lemma resent_config_late_interceptor (ls : Storage) (cfg : AxiosRequestConfig) :
  request_interceptor (clearTokens ls) (request_interceptor ls cfg)
  = resent_config ls cfg.
Proof.
  unfold resent_config.
  rewrite (request_interceptor_none (clearTokens ls)) by apply clearTokens_access.
  unfold request_interceptor.
  destruct (getAccessToken ls) as [token|]; [|done].
  destruct (truthy token); [|done].
  unfold set_Authorization. simpl. by rewrite insert_insert_eq.
Qed.

(** The [finally] block releases every queued handler: each is re-sent
    once, in queue order, and is in flight afterwards; the other
    requests are as they were. *)
Lemma run_finally_effect (c : State) :
  (∀ w, w ∈ pendingRequests c → is_Some (requests c !! w)) →
  ∃ sent,
    wire (run_finally c) = (wire c ++ sent)%list
    ∧ sent.*1 = pendingRequests c
    ∧ (∀ p, p ∈ sent → ∃ cfg, p.2 = resent_config (localStorage c) cfg)
    ∧ (∀ w, w ∈ pendingRequests c →
         ∃ cfg, requests (run_finally c) !! w
                = Some (mkRequest (resent_config (localStorage c) cfg) InFlight))
    ∧ (∀ j, j ∉ pendingRequests c → requests (run_finally c) !! j = requests c !! j).
Proof.
  intros Hk. rewrite run_finally_release.
  set (c0 := set_pendingRequests [] (set_isRefreshing false c)).
  destruct (release_wire (pendingRequests c) c0 Hk) as (sent & Hw & Hids & Hcfg).
  exists sent. split_and!; try done.
  - intros w Hw'. by apply (release_self (pendingRequests c) w c0 Hw'), Hk.
  - intros j Hj. by rewrite release_other.
Qed.

Lemma Inv_pending_known (c : State) :
  Inv c → ∀ w, w ∈ pendingRequests c → is_Some (requests c !! w).
Proof. intros HI w Hw. destruct (inv_queued c HI w Hw) as (? & ? & ->). eauto. Qed.

(** C2, as amended. Let the refresh POST that the handler of request
    [id] awaits be answered. If it is rejected, request [id] is rejected
    with the error its handler was given and is not re-sent, both
    stored tokens are removed and the location becomes [/login]. If it
    succeeds with a non-empty access token, that token is stored and
    request [id] is re-sent with it. In both cases every queued handler
    is released and its request re-sent once, in queue order, with the
    access token stored when the POST was answered, which after a
    success is the new one; the queue is empty afterwards and no POST
    is out. *)
Theorem refresh_answer_releases_queue (c : State) (id : ReqId) :
  reachable c → id ∈ (refreshPosts c).*1 →
  (∃ c' cfg e sent,
      step (RefreshAnswer id None) c = Some c'
      ∧ requests c !! id = Some (mkRequest cfg (Refreshing e))
      ∧ requests c' !! id = Some (mkRequest cfg (Rejected e))
      ∧ (id ∉ pendingRequests c)
      ∧ getAccessToken (localStorage c') = None
      ∧ getRefreshToken (localStorage c') = None
      ∧ location_href c' = "/login"
      ∧ wire c' = (wire c ++ sent)%list
      ∧ sent.*1 = pendingRequests c
      ∧ (∀ w, w ∈ pendingRequests c →
           ∃ cfgw, requests c' !! w
                   = Some (mkRequest (resent_config (localStorage c) cfgw) InFlight))
      ∧ pendingRequests c' = [] ∧ refreshPosts c' = [])
  ∧ (∀ a, a ≠ "" →
     ∃ c' sent,
      step (RefreshAnswer id (Some a)) c = Some c'
      ∧ getAccessToken (localStorage c') = Some a
      ∧ wire c' = (wire c ++ sent)%list
      ∧ sent.*1 = (pendingRequests c ++ [id])%list
      ∧ (∀ p, p ∈ sent → authorization p.2 = Some ("Bearer " ++ a))
      ∧ (∀ w, w ∈ pendingRequests c ∨ w = id →
           ∃ cfgw, requests c' !! w = Some (mkRequest cfgw InFlight)
                   ∧ authorization cfgw = Some ("Bearer " ++ a))
      ∧ pendingRequests c' = [] ∧ refreshPosts c' = []).
Proof.
  intros Hc Hin. pose proof (reachable_Inv c Hc) as HI.
  destruct (inv_refreshing c HI id Hin) as (cfg & e & Hid).
  destruct (Inv_the_post c id HI Hin) as [t Hposts].
  pose proof (Inv_refreshing_apart c id cfg e HI Hid) as Hnq.
  pose proof (Inv_pending_known c HI) as Hknown.
  split.
  - (* the refresh failed *)
    set (c1 := set_refreshPosts [] c).
    destruct (run_finally_effect c1 Hknown) as (sent & Hw & Hids & _ & Hrel & Hoth).
    destruct (run_finally_frame c1) as (Hls & _ & Hp & _ & Hr).
    assert (step (RefreshAnswer id None) c
            = Some (set_phase id (Rejected e)
                      (set_location_href "/login"
                         (set_localStorage (clearTokens (localStorage (run_finally c1)))
                            (run_finally c1))))) as Hstep.
    { simpl. rewrite Hid, decide_True by done.
      by rewrite Hposts, remove_post_single. }
    eexists _, cfg, e, sent. split; [exact Hstep|].
    match goal with |- context [set_phase id ?p ?s] =>
      pose proof (set_phase_frame id p s) as Hfr;
      pose proof (set_phase_self id p s (mkRequest cfg (Refreshing e))) as Hself;
      pose proof (λ j, set_phase_other id j p s) as Hother end.
    destruct Hfr as (-> & _ & -> & -> & -> & ->). simpl.
    simpl in Hself. rewrite Hself by (rewrite Hoth; done).
    split_and!; try done.
    + apply clearTokens_access.
    + apply clearTokens_refresh.
    + intros w Hw'. destruct (Hrel w Hw') as [cfgw Hcfgw]. exists cfgw.
      rewrite Hother by (intros ->; done). exact Hcfgw.
  - (* the refresh succeeded *)
    intros a Ha.
    set (c1 := set_localStorage (setTokens (mkTokens (Some a) None) (localStorage c))
                 (set_refreshPosts [] c)).
    assert (getAccessToken (localStorage c1) = Some a) as Htok.
    { simpl. rewrite setTokens_access_value. by apply truthy_true in Ha as ->. }
    destruct (run_finally_effect c1 Hknown) as (sent & Hw & Hids & Hcfg & Hrel & Hoth).
    destruct (run_finally_frame c1) as (Hls & _ & Hp & _ & Hr).
    assert (requests (run_finally c1) !! id = Some (mkRequest cfg (Refreshing e))) as Hid'.
    { by rewrite Hoth. }
    assert (step (RefreshAnswer id (Some a)) c
            = Some (retry_original id (run_finally c1))) as Hstep.
    { simpl. rewrite Hid, decide_True by done.
      by rewrite Hposts, remove_post_single. }
    destruct (retry_original_frame id (run_finally c1)) as (Hls2 & _ & Hp2 & _ & Hr2).
    exists (retry_original id (run_finally c1)),
      (sent ++ [(id, resent_config (localStorage (run_finally c1)) cfg)])%list.
    split; [exact Hstep|].
    rewrite Hls2, Hp2, Hr2, Hls, Hp, Hr.
    rewrite (retry_original_wire _ _ _ Hid'), Hw, Hls. simpl.
    split_and!; try done.
    + by rewrite app_assoc.
    + by rewrite fmap_app, Hids.
    + intros p [Hp'| ->%list_elem_of_singleton]%elem_of_app.
      * destruct (Hcfg p Hp') as [cfgw ->]. by apply resent_config_token.
      * by apply resent_config_token.
    + intros w [Hw'| ->].
      * destruct (Hrel w Hw') as [cfgw Hcfgw].
        exists (resent_config (localStorage c1) cfgw). split.
        -- rewrite retry_original_other by (intros ->; done). exact Hcfgw.
        -- by apply resent_config_token.
      * exists (resent_config (localStorage c1) cfg). split.
        -- rewrite (retry_original_self _ _ _ Hid'). by rewrite Hls.
        -- by apply resent_config_token.
Qed.

Lemma refresh_answer_releases_queue_witness :
  reachable (state_after one_queued)
  ∧ 1%nat ∈ (refreshPosts (state_after one_queued)).*1
  ∧ ∃ c' sent,
      step (RefreshAnswer 1%nat (Some "a1")) (state_after one_queued) = Some c'
      ∧ wire c' = (wire (state_after one_queued) ++ sent)%list
      ∧ sent.*1 = [2%nat; 1%nat]
      ∧ ∀ p, p ∈ sent → authorization p.2 = Some "Bearer a1".
Proof.
  assert (1%nat ∈ (refreshPosts (state_after one_queued)).*1) as Hin.
  { vm_compute. constructor. }
  split_and!; [apply state_after_reachable|exact Hin|].
  destruct (proj2 (refresh_answer_releases_queue (state_after one_queued) 1%nat
                     (state_after_reachable _) Hin) "a1")
    as (c' & sent & Hstep & _ & Hwire & Hids & Hauth & _); [discriminate|].
  exists c', sent. by split_and!.
Defined.

(** C2 as stated fails where the refresh fails: request 2, queued
    behind the refresh of request 1, is not rejected when that refresh
    is; it is re-sent. *)
Lemma queued_request_survives_failed_refresh :
  ¬ (∀ c id w c',
       reachable c → id ∈ (refreshPosts c).*1 → w ∈ pendingRequests c →
       step (RefreshAnswer id None) c = Some c' →
       (∃ cfg e, requests c' !! w = Some (mkRequest cfg (Rejected e)))
       ∧ transmissions w c' = transmissions w c).
Proof.
  intros H.
  destruct (step (RefreshAnswer 1%nat None) (state_after one_queued)) as [c'|] eqn:Hstep;
    [|by vm_compute in Hstep].
  destruct (H (state_after one_queued) 1%nat 2%nat c' (state_after_reachable _))
    as [(cfg & e & Hreq) _].
  - vm_compute. constructor.
  - vm_compute. constructor.
  - exact Hstep.
  - vm_compute in Hstep. injection Hstep as <-.
    vm_compute in Hreq. discriminate.
Qed.

End ClientFacts.

(** ** The Daily Review merge *)
Module DailyReviewFacts.
Import Types DailyReview.









End DailyReviewFacts.

Module DailyReviewExamples.
Import Types DailyReview DailyReviewFacts Samples.


Example load_sample :
  load blocks_today suggestions_today
  = [dto 7 (Some [suggestion_acme]); dto 8 (Some [])].
Proof. vm_compute. reflexivity. Qed.

End DailyReviewExamples.

(** ** The label payload and the label write *)
Module LabelFacts.
Import Samples.

Lemma if_truthy_spec (v : string) :
  BlockCard.if_truthy v = if decide (v = "") then None else Some v.
Proof. by destruct v. Qed.

(** C7, as amended. On the server (modelled from section 4.4 of the
    specification), applying labels to a stored block writes the fields
    the labels carry and leaves every other field of the block, and
    every other block, as stored. In the client, the payload [apply]
    submits holds [block_id], those of client, project, task and notes
    whose input is non-empty, and, when the create-rule box is ticked,
    [create_rule], [create_rule_field] and [create_rule_value]; it
    never holds [pattern] or [kind]. With the box unticked it holds
    [block_id] and the non-empty labels only. *)
Theorem label_write_is_partial (store : gmap Z Core.Block) (block_id : Z)
    (b : Core.Block) (labels : Core.Labels) (s : BlockCard.Card) :
  store !! block_id = Some b →
  (∃ store' b',
     Core.apply store block_id labels = inr (store', b')
     ∧ store' !! block_id = Some b'
     ∧ (∀ j, j ≠ block_id → store' !! j = store !! j)
     ∧ Core.client b' = from_option Some (Core.client b) (Core.l_client labels)
     ∧ Core.project b' = from_option Some (Core.project b) (Core.l_project labels)
     ∧ Core.task b' = from_option Some (Core.task b) (Core.l_task labels)
     ∧ Core.notes b' = from_option Some (Core.notes b) (Core.l_notes labels)
     ∧ (Core.start b', Core.end_ b', Core.minutes b')
       = (Core.start b, Core.end_ b, Core.minutes b)
     ∧ (Core.title b', Core.b_url b', Core.b_file_path b')
       = (Core.title b, Core.b_url b, Core.b_file_path b))
  ∧ Blocks.block_id (BlockCard.apply s) = Types.id (BlockCard.block s)
  ∧ Blocks.client (BlockCard.apply s)
    = (if decide (BlockCard.client s = "") then None else Some (BlockCard.client s))
  ∧ Blocks.project (BlockCard.apply s)
    = (if decide (BlockCard.project s = "") then None else Some (BlockCard.project s))
  ∧ Blocks.task (BlockCard.apply s)
    = (if decide (BlockCard.task s = "") then None else Some (BlockCard.task s))
  ∧ Blocks.notes (BlockCard.apply s)
    = (if decide (BlockCard.notes s = "") then None else Some (BlockCard.notes s))
  ∧ (Blocks.create_rule (BlockCard.apply s),
     Blocks.create_rule_field (BlockCard.apply s),
     Blocks.create_rule_value (BlockCard.apply s))
    = (if BlockCard.createRule s
       then (Some true, Some (BlockCard.ruleField s), Some (BlockCard.ruleValue s))
       else (None, None, None))
  ∧ Blocks.pattern (BlockCard.apply s) = None
  ∧ Blocks.kind (BlockCard.apply s) = None
  ∧ (BlockCard.createRule s = false → BlockCard.apply s = BlockCard.labels_only s).
Proof.
  intros Hb. split.
  - exists (<[block_id := Core.write_labels labels b]> store), (Core.write_labels labels b).
    unfold Core.apply. rewrite Hb. split_and!; try done.
    + apply lookup_insert_eq.
    + intros j Hj. by rewrite lookup_insert_ne.
  - unfold BlockCard.apply, BlockCard.labels_only. simpl.
    rewrite !if_truthy_spec. split_and!; try done;
      first [by destruct (BlockCard.createRule s) | by intros ->].
Qed.

Lemma label_write_is_partial_witness :
  ({[ 7 := stored_block ]} : gmap Z Core.Block) !! 7 = Some stored_block
  ∧ ∃ store' b',
      Core.apply {[ 7 := stored_block ]} 7
        (Core.labels_of (BlockCard.apply card_with_rule)) = inr (store', b')
      ∧ Core.client b' = Some "Acme"
      ∧ Core.project b' = Core.project stored_block.
Proof.
  assert (({[ 7 := stored_block ]} : gmap Z Core.Block) !! 7 = Some stored_block) as Hb
    by apply lookup_singleton_eq.
  split; [exact Hb|].
  destruct (proj1 (label_write_is_partial {[ 7 := stored_block ]} 7 stored_block
                     (Core.labels_of (BlockCard.apply card_with_rule))
                     card_with_rule Hb))
    as (store' & b' & Happly & _ & _ & Hclient & Hproject & _).
  exists store', b'. split_and!; [exact Happly|exact Hclient|exact Hproject].
Defined.

(** C7 as stated fails for a card whose create-rule box is ticked: the
    payload then holds three keys beyond [block_id] and the labels. *)
Lemma payload_with_rule_has_more_keys :
  ¬ (∀ s : BlockCard.Card, BlockCard.apply s = BlockCard.labels_only s).
Proof. intros H. specialize (H card_with_rule). discriminate. Qed.

End LabelFacts.

(** ** The aggregator *)
Module AggregateFacts.
Import Core Samples.
















(** The first scenario of section 8 of the specification, under the
    reading that lets a block run up to the sample that closes it. *)
Example scenario_one_block :
  aggregate true
    [mkEvent 0 editor; mkEvent 4 editor; mkEvent 9 browser] 5 5
  = [block_of (mkOpen editor 0 4) 9].
Proof. reflexivity. Qed.

(** Two samples of one identity further apart than the tolerance give
    two blocks (here with no dwell threshold). *)
Example gap_splits :
  aggregate false [mkEvent 0 editor; mkEvent 100 editor] 0 5
  = [block_of (mkOpen editor 0 0) 0; block_of (mkOpen editor 100 100) 100].
Proof. reflexivity. Qed.

End AggregateFacts.

(** ** More on the token storage and the request interceptor *)
Module TokenExtraFacts.
Import Client TokenFacts ClientFacts.

Lemma setTokens_other (tokens : PartialJwtPair) (ls : Storage) (k : string) :
  k ≠ ACCESS_KEY → k ≠ REFRESH_KEY → setTokens tokens ls !! k = ls !! k.
Proof.
  intros Ha Hr. unfold setTokens, setItem.
  destruct (access tokens) as [a|], (refresh tokens) as [r|];
    repeat case_match; rewrite ?lookup_insert_ne by done; done.
Qed.

(** X1: [setTokens] and [clearTokens] write the two token keys only:
    every other key of [localStorage] reads as before. *)
Theorem token_writers_touch_token_keys_only (tokens : PartialJwtPair) (ls : Storage)
    (k : string) :
  k ≠ ACCESS_KEY → k ≠ REFRESH_KEY →
  getItem k (setTokens tokens ls) = getItem k ls
  ∧ getItem k (clearTokens ls) = getItem k ls.
Proof.
  intros Ha Hr. unfold getItem, setTokens, clearTokens, setItem, removeItem. split.
  - by apply setTokens_other.
  - by rewrite !lookup_delete_ne.
Qed.

Lemma token_writers_touch_token_keys_only_witness :
  getItem "theme" (setTokens (mkTokens (Some "a1") (Some "r1")) {[ "theme" := "dark" ]})
  = Some "dark".
Proof.
  rewrite (proj1 (token_writers_touch_token_keys_only
                    (mkTokens (Some "a1") (Some "r1")) {[ "theme" := "dark" ]} "theme"
                    ltac:(discriminate) ltac:(discriminate))).
  reflexivity.
Defined.

Lemma getAccessToken_setTokens (tokens : PartialJwtPair) (ls : Storage) :
  getAccessToken (setTokens tokens ls)
  = match access tokens with
    | Some a => if truthy a then Some a else getAccessToken ls
    | None => getAccessToken ls
    end.
Proof.
  pose proof keys_differ as Hk.
  unfold getAccessToken, getItem, setTokens, setItem.
  destruct (access tokens) as [a|], (refresh tokens) as [r|];
    repeat case_match; simplify_eq;
    rewrite ?(lookup_insert_ne _ REFRESH_KEY ACCESS_KEY) by done;
    rewrite ?lookup_insert_eq; done.
Qed.

Lemma getRefreshToken_setTokens (tokens : PartialJwtPair) (ls : Storage) :
  getRefreshToken (setTokens tokens ls)
  = match refresh tokens with
    | Some r => if truthy r then Some r else getRefreshToken ls
    | None => getRefreshToken ls
    end.
Proof.
  pose proof keys_differ as Hk.
  unfold getRefreshToken, getItem, setTokens, setItem.
  destruct (access tokens) as [a|], (refresh tokens) as [r|];
    repeat case_match; simplify_eq;
    rewrite ?lookup_insert_eq, ?(lookup_insert_ne _ ACCESS_KEY REFRESH_KEY) by done;
    done.
Qed.

(** X2: how the token writers compose. Storing the same tokens twice is
    storing them once; clearing forgets whatever was stored before, and
    clearing twice is clearing once; storing the access token and the
    refresh token one after the other, in either order, is storing the
    pair. *)
Theorem token_writers_compose (tokens : PartialJwtPair) (a r : string) (ls : Storage) :
  setTokens tokens (setTokens tokens ls) = setTokens tokens ls
  ∧ clearTokens (setTokens tokens ls) = clearTokens ls
  ∧ clearTokens (clearTokens ls) = clearTokens ls
  ∧ setTokens (mkTokens None (Some r)) (setTokens (mkTokens (Some a) None) ls)
    = setTokens (mkTokens (Some a) (Some r)) ls
  ∧ setTokens (mkTokens (Some a) None) (setTokens (mkTokens None (Some r)) ls)
    = setTokens (mkTokens (Some a) (Some r)) ls.
Proof.
  pose proof keys_differ as Hk.
  assert (∀ t m, clearTokens (setTokens t m) = clearTokens m) as Hclear.
  { intros t m. apply map_eq. intros k.
    destruct (decide (k = ACCESS_KEY)) as [->|Ha].
    { unfold clearTokens, removeItem.
      rewrite !(lookup_delete_ne _ REFRESH_KEY ACCESS_KEY) by done.
      by rewrite !lookup_delete_eq. }
    destruct (decide (k = REFRESH_KEY)) as [->|Hr].
    { unfold clearTokens, removeItem. by rewrite !lookup_delete_eq. }
    unfold clearTokens, removeItem. rewrite !lookup_delete_ne by done.
    apply (setTokens_other t m k Ha Hr). }
  split_and!.
  - apply map_eq. intros k.
    destruct (decide (k = ACCESS_KEY)) as [->|Ha].
    { pose proof (getAccessToken_setTokens tokens (setTokens tokens ls)) as H1.
      pose proof (getAccessToken_setTokens tokens ls) as H2.
      unfold getAccessToken, getItem in H1, H2. rewrite H1, H2.
      by repeat case_match. }
    destruct (decide (k = REFRESH_KEY)) as [->|Hr].
    { pose proof (getRefreshToken_setTokens tokens (setTokens tokens ls)) as H1.
      pose proof (getRefreshToken_setTokens tokens ls) as H2.
      unfold getRefreshToken, getItem in H1, H2. rewrite H1, H2.
      by repeat case_match. }
    apply (setTokens_other tokens _ k Ha Hr).
  - apply Hclear.
  - unfold clearTokens, removeItem. apply map_eq. intros k.
    destruct (decide (k = REFRESH_KEY)) as [->|Hr]; [by rewrite !lookup_delete_eq|].
    rewrite !(lookup_delete_ne _ REFRESH_KEY k) by done.
    destruct (decide (k = ACCESS_KEY)) as [->|Ha]; [by rewrite !lookup_delete_eq|].
    by rewrite !lookup_delete_ne.
  - unfold setTokens, setItem. simpl. by repeat case_match.
  - unfold setTokens, setItem. simpl.
    repeat case_match; try done. by apply insert_insert_ne.
Qed.

End TokenExtraFacts.

Module InterceptorExtraFacts.
Import Client TokenFacts ClientFacts.

(** X3: in every state the client can be in, neither token key holds
    the empty string: a stored token is always a non-empty string. *)
Theorem stored_tokens_are_never_empty (c : State) :
  reachable c →
  (∀ token, getAccessToken (localStorage c) = Some token → token ≠ "")
  ∧ (∀ token, getRefreshToken (localStorage c) = Some token → token ≠ "").
Proof.
  intros Hc. destruct (reachable_Inv c Hc) as [[Ha Hr] _ _ _ _ _].
  split; intros token Htok ->; congruence.
Qed.

Lemma stored_tokens_are_never_empty_witness :
  reachable (Scenarios.state_after Scenarios.one_queued)
  ∧ ∀ token,
      getAccessToken (localStorage (Scenarios.state_after Scenarios.one_queued)) = Some token →
      token ≠ "".
Proof.
  split; [apply state_after_reachable|].
  exact (proj1 (stored_tokens_are_never_empty _ (state_after_reachable _))).
Defined.

(** X4: the request interceptor changes nothing of a config but its
    [Authorization] header: the url, the [_retry] flag and every other
    header stay. With a non-empty access token stored it overwrites
    whatever [Authorization] the caller had set; otherwise it returns the
    config as it is. Running it twice is running it once. *)
Theorem request_interceptor_frame (ls : Storage) (cfg : AxiosRequestConfig) :
  url (request_interceptor ls cfg) = url cfg
  ∧ _retry (request_interceptor ls cfg) = _retry cfg
  ∧ (∀ h, h ≠ "Authorization" →
       default ∅ (headers (request_interceptor ls cfg)) !! h
       = default ∅ (headers cfg) !! h)
  ∧ authorization (request_interceptor ls cfg)
    = match getAccessToken ls with
      | Some token => if truthy token then Some ("Bearer " ++ token) else authorization cfg
      | None => authorization cfg
      end
  ∧ request_interceptor ls (request_interceptor ls cfg) = request_interceptor ls cfg.
Proof.
  unfold request_interceptor.
  destruct (getAccessToken ls) as [token|]; [|done].
  destruct (truthy token); [|done].
  split_and!; try done.
  - intros h Hh. simpl. by rewrite lookup_insert_ne.
  - apply authorization_set.
  - unfold set_Authorization. simpl. by rewrite insert_insert_eq.
Qed.

End InterceptorExtraFacts.

(** ** What a step of the client touches *)
Module ClientExtraFacts.
Import Client ClientExtra TokenFacts ClientFacts.

Lemma api_retry (id : ReqId) (cfg : AxiosRequestConfig) (c : State) :
  ∃ r, requests (api id cfg c) !! id = Some r ∧ _retry (config r) = _retry cfg.
Proof.
  eexists. unfold api. simpl. rewrite lookup_insert_eq. split; [done|].
  apply request_interceptor_retry.
Qed.

(** A known request stays known through a re-send, with its flag. *)
Lemma retry_original_flag (id j : ReqId) (c : State) (r : Request) :
  requests c !! j = Some r →
  ∃ r', requests (retry_original id c) !! j = Some r'
        ∧ _retry (config r') = _retry (config r).
Proof.
  intros Hj. destruct (decide (j = id)) as [->|Hne].
  - rewrite (retry_original_self _ _ _ Hj). eexists. split; [done|]. simpl.
    unfold resent_config. by rewrite !request_interceptor_retry.
  - rewrite retry_original_other by done. eauto.
Qed.

Lemma release_flag (l : list ReqId) (j : ReqId) (c : State) (r : Request) :
  requests c !! j = Some r →
  ∃ r', requests (release l c) !! j = Some r'
        ∧ _retry (config r') = _retry (config r).
Proof.
  revert c r. induction l as [|id l IH]; intros c r Hj; [eauto|].
  destruct (retry_original_flag id j c r Hj) as (r1 & Hr1 & Hf1).
  destruct (IH (retry_original id c) r1 Hr1) as (r2 & Hr2 & Hf2).
  exists r2. split; [done|]. congruence.
Qed.

Lemma set_phase_flag (id j : ReqId) (p : Phase) (c : State) (r : Request) :
  requests c !! j = Some r →
  ∃ r', requests (set_phase id p c) !! j = Some r' ∧ config r' = config r.
Proof.
  intros Hj. destruct (decide (j = id)) as [->|Hne].
  - rewrite (set_phase_self _ _ _ _ Hj). eauto.
  - rewrite set_phase_other by done. eauto.
Qed.

(** The transmissions a re-send adds are of that request. *)
Lemma retry_original_sent (id : ReqId) (c : State) :
  ∃ sent, wire (retry_original id c) = (wire c ++ sent)%list
          ∧ ∀ p, p ∈ sent → p.1 = id.
Proof.
  destruct (requests c !! id) as [r|] eqn:Hr.
  - rewrite (retry_original_wire _ _ _ Hr). eexists. split; [done|].
    by intros p ->%list_elem_of_singleton.
  - rewrite retry_original_unknown by done. exists []. rewrite app_nil_r.
    split; [done|]. by intros p ?%elem_of_nil.
Qed.

Lemma release_sent (l : list ReqId) (c : State) :
  ∃ sent, wire (release l c) = (wire c ++ sent)%list
          ∧ ∀ p, p ∈ sent → p.1 ∈ l.
Proof.
  revert c. induction l as [|id l IH]; intros c.
  - exists []. rewrite app_nil_r. split; [done|]. by intros p ?%elem_of_nil.
  - destruct (retry_original_sent id c) as (s1 & Hw1 & Hs1).
    destruct (IH (retry_original id c)) as (s2 & Hw2 & Hs2).
    exists (s1 ++ s2)%list.
    change (release (id :: l) c) with (release l (retry_original id c)).
    rewrite Hw2, Hw1, app_assoc. split; [done|].
    intros p [Hp|Hp]%elem_of_app.
    + rewrite (Hs1 p Hp). by left.
    + right. by apply Hs2.
Qed.

Lemma run_finally_touch (c : State) :
  (∀ j, j ∉ pendingRequests c → requests (run_finally c) !! j = requests c !! j)
  ∧ ∃ sent, wire (run_finally c) = (wire c ++ sent)%list
            ∧ ∀ p, p ∈ sent → p.1 ∈ pendingRequests c.
Proof.
  rewrite run_finally_release. split.
  - intros j Hj. by rewrite release_other.
  - apply (release_sent (pendingRequests c)
             (set_pendingRequests [] (set_isRefreshing false c))).
Qed.

(** What has to hold for an event to happen. *)
Lemma step_enabled (ev : Event) (c c' : State) :
  step ev c = Some c' →
  match ev with
  | Call id _ => requests c !! id = None
  | Succeed id => ∃ cfg, requests c !! id = Some (mkRequest cfg InFlight)
  | Fail id _ _ => ∃ cfg, requests c !! id = Some (mkRequest cfg InFlight)
  | RefreshAnswer id _ =>
      (∃ cfg e, requests c !! id = Some (mkRequest cfg (Refreshing e)))
      ∧ id ∈ (refreshPosts c).*1
  | Login _ => True
  | Logout => True
  end.
Proof.
  intros Hstep. destruct ev as [id cfg|id|id status message|id answer|data|];
    simpl in Hstep; try done.
  - by destruct (requests c !! id).
  - destruct (requests c !! id) as [[cfg []]|]; try done. eauto.
  - destruct (requests c !! id) as [[cfg []]|]; try done. eauto.
  - destruct (requests c !! id) as [[cfg []]|]; try done.
    destruct (decide (id ∈ (refreshPosts c).*1)); [|done]. eauto.
Qed.

(** The shape of the state after each kind of step. *)
Lemma step_Fail_shape (c c' : State) (id : ReqId) (status : option Z) (message : string) :
  step (Fail id status message) c = Some c' →
  ∃ cfg, requests c !! id = Some (mkRequest cfg InFlight) ∧
  let error := mkError id status message in
  (c' = set_phase id (Rejected error) c
   ∧ (status ≠ Some 401 ∨ _retry cfg = true))
  ∨ (c' = set_phase id (Queued error) (set_pendingRequests (pendingRequests c ++ [id]) c)
     ∧ status = Some 401 ∧ _retry cfg = false ∧ isRefreshing c = true)
  ∨ (∃ t, c' = set_phase id (Refreshing error)
                 (set_refreshPosts (refreshPosts c ++ [(id, t)])
                    (set_isRefreshing true
                       (set_requests (<[id := mkRequest (set_retry cfg) InFlight]> (requests c)) c)))
          ∧ status = Some 401 ∧ _retry cfg = false ∧ isRefreshing c = false
          ∧ getRefreshToken (localStorage c) = Some t ∧ t ≠ "")
  ∨ (∃ c1, c1 = run_finally
                  (set_isRefreshing true
                     (set_requests (<[id := mkRequest (set_retry cfg) InFlight]> (requests c)) c))
           ∧ c' = set_phase id (Rejected error)
                    (set_location_href "/login"
                       (set_localStorage (clearTokens (localStorage c1)) c1))
           ∧ status = Some 401 ∧ _retry cfg = false ∧ isRefreshing c = false
           ∧ (getRefreshToken (localStorage c) = None
              ∨ getRefreshToken (localStorage c) = Some "")).
Proof.
  intros Hstep. simpl in Hstep.
  destruct (requests c !! id) as [[cfg []]|] eqn:Hid; try done.
  injection Hstep as <-. exists cfg. split; [done|]. simpl.
  set (error := mkError id status message).
  destruct (onRejected_cases error c _ Hid) as [Hrej|[Hs Hretry]]; simpl in *.
  - left. rewrite onRejected_reject by (destruct Hrej; eauto). simpl. by split.
  - right. destruct (isRefreshing c) eqn:Hf.
    + left. by rewrite (onRejected_queue error c _ Hid Hs Hretry Hf).
    + right. rewrite (onRejected_refresh error c _ Hid Hs Hretry Hf). simpl.
      unfold refreshAccessToken. simpl.
      destruct (getRefreshToken (localStorage c)) as [t|] eqn:Ht;
        [destruct (truthy t) eqn:Tt|].
      * left. exists t. simpl. split_and!; try done. by apply truthy_true.
      * right. eexists. split; [done|]. simpl. split_and!; try done.
        right. f_equal. by apply truthy_false.
      * right. eexists. split; [done|]. simpl. split_and!; try done. by left.
Qed.

Lemma step_RefreshAnswer_shape (c c' : State) (id : ReqId) (answer : option string) :
  Inv c → step (RefreshAnswer id answer) c = Some c' →
  ∃ cfg e, requests c !! id = Some (mkRequest cfg (Refreshing e)) ∧
  match answer with
  | Some a =>
      c' = retry_original id
             (run_finally
                (set_localStorage (setTokens (mkTokens (Some a) None) (localStorage c))
                   (set_refreshPosts [] c)))
  | None =>
      c' = set_phase id (Rejected e)
             (set_location_href "/login"
                (set_localStorage
                   (clearTokens (localStorage (run_finally (set_refreshPosts [] c))))
                   (run_finally (set_refreshPosts [] c))))
  end.
Proof.
  intros HI Hstep. simpl in Hstep.
  destruct (requests c !! id) as [[cfg []]|] eqn:Hid; try done.
  destruct (decide (id ∈ (refreshPosts c).*1)) as [Hin|]; [|done].
  destruct (Inv_the_post c id HI Hin) as [t Hposts].
  rewrite Hposts, remove_post_single in Hstep.
  exists cfg, error. split; [done|].
  destruct answer as [a|]; simpl in Hstep; by injection Hstep as <-.
Qed.

End ClientExtraFacts.

Module ClientStepFacts.
Import Client ClientExtra TokenFacts ClientFacts ClientExtraFacts.

Lemma transmissions_sent (id : ReqId) (c c' : State) (sent : list (ReqId * AxiosRequestConfig)) :
  wire c' = (wire c ++ sent)%list →
  transmissions id c'
  = (transmissions id c + length (filter (λ p, p.1 = id) sent))%nat.
Proof. intros Hw. unfold transmissions. by rewrite Hw, filter_app, length_app. Qed.

Lemma filter_others (id : ReqId) (sent : list (ReqId * AxiosRequestConfig)) :
  (∀ p, p ∈ sent → p.1 ≠ id) → filter (λ p, p.1 = id) sent = [].
Proof.
  induction sent as [|p sent IH]; intros Hall; [done|].
  rewrite filter_cons_False by (apply Hall; left).
  apply IH. intros q Hq. apply Hall. by right.
Qed.

Lemma transmissions_same (id : ReqId) (c c' : State) (sent : list (ReqId * AxiosRequestConfig)) :
  wire c' = (wire c ++ sent)%list → (∀ p, p ∈ sent → p.1 ≠ id) →
  transmissions id c' = transmissions id c.
Proof.
  intros Hw Hall. rewrite (transmissions_sent id c c' sent Hw), filter_others by done.
  simpl. lia.
Qed.

(** A step changes the requests it touches only, and sends only what it
    may re-send. *)
Lemma step_touch (ev : Event) (c c' : State) :
  Inv c → step ev c = Some c' →
  (∀ j, j ∉ touched ev c → requests c' !! j = requests c !! j)
  ∧ ∃ sent, wire c' = (wire c ++ sent)%list ∧ ∀ p, p ∈ sent → p.1 ∈ resent ev c.
Proof.
  intros HI Hstep. destruct ev as [id cfg|id|id status message|id answer|data|].
  - simpl in Hstep. destruct (requests c !! id); [done|]. injection Hstep as <-.
    split.
    + intros j Hj. simpl. rewrite lookup_insert_ne; [done|].
      intros ->. apply Hj. by left.
    + eexists. split; [done|]. simpl. by intros p ->%list_elem_of_singleton; left.
  - simpl in Hstep. destruct (requests c !! id) as [[cfg []]|]; try done.
    injection Hstep as <-. split.
    + intros j Hj. apply set_phase_other. intros ->. apply Hj. by left.
    + exists []. rewrite app_nil_r.
      destruct (set_phase_frame id Fulfilled c) as (_ & _ & _ & _ & _ & ->).
      split; [done|]. by intros p ?%elem_of_nil.
  - destruct (step_Fail_shape c c' id status message Hstep) as (cfg & Hid & Hshape).
    simpl in Hshape.
    destruct Hshape as [[-> _]|[(-> & _)|[(t & -> & _)|(c1 & Hc1 & -> & _)]]].
    + split.
      * intros j Hj. apply set_phase_other. intros ->. apply Hj. by left.
      * exists []. rewrite app_nil_r.
        match goal with |- context [set_phase id ?p ?s] =>
          pose proof (set_phase_frame id p s) as Hfr end.
        destruct Hfr as (_ & _ & _ & _ & _ & ->).
        split; [done|]. by intros p ?%elem_of_nil.
    + split.
      * intros j Hj. rewrite set_phase_other; [done|]. intros ->. apply Hj. by left.
      * exists []. rewrite app_nil_r.
        match goal with |- context [set_phase id ?p ?s] =>
          pose proof (set_phase_frame id p s) as Hfr end.
        destruct Hfr as (_ & _ & _ & _ & _ & ->).
        split; [done|]. by intros p ?%elem_of_nil.
    + split.
      * intros j Hj. assert (j ≠ id) by (intros ->; apply Hj; by left).
        rewrite set_phase_other by done. simpl. by rewrite lookup_insert_ne.
      * exists []. rewrite app_nil_r.
        match goal with |- context [set_phase id ?p ?s] =>
          pose proof (set_phase_frame id p s) as Hfr end.
        destruct Hfr as (_ & _ & _ & _ & _ & ->).
        split; [done|]. by intros p ?%elem_of_nil.
    + set (c2 := set_isRefreshing true
                   (set_requests (<[id:=mkRequest (set_retry cfg) InFlight]> (requests c)) c))
        in *.
      destruct (run_finally_touch c2) as (Hoth & sent & Hw & Hsent).
      subst c1. split.
      * intros j Hj. apply not_elem_of_cons in Hj as [Hne Hj].
        rewrite set_phase_other by done. simpl. rewrite Hoth by done.
        simpl. by rewrite lookup_insert_ne.
      * exists sent.
        match goal with |- context [set_phase id ?p ?s] =>
          pose proof (set_phase_frame id p s) as Hfr end.
        destruct Hfr as (_ & _ & _ & _ & _ & ->). simpl. by split.
  - destruct (step_RefreshAnswer_shape c c' id answer HI Hstep) as (cfg & e & Hid & Hshape).
    destruct answer as [a|]; subst c'.
    + set (c1 := set_localStorage _ (set_refreshPosts [] c)).
      destruct (run_finally_touch c1) as (Hoth & sent & Hw & Hsent).
      destruct (retry_original_sent id (run_finally c1)) as (s2 & Hw2 & Hs2).
      split.
      * intros j Hj. apply not_elem_of_cons in Hj as [Hne Hj].
        rewrite retry_original_other by done. by rewrite Hoth.
      * exists (sent ++ s2)%list. rewrite Hw2, Hw, app_assoc. split; [done|].
        simpl. intros p [Hp|Hp]%elem_of_app; apply elem_of_app.
        -- left. by apply Hsent.
        -- right. rewrite (Hs2 p Hp). by left.
    + set (c1 := set_refreshPosts [] c).
      destruct (run_finally_touch c1) as (Hoth & sent & Hw & Hsent).
      split.
      * intros j Hj. apply not_elem_of_cons in Hj as [Hne Hj].
        rewrite set_phase_other by done. simpl. by rewrite Hoth.
      * exists sent.
        match goal with |- context [set_phase id ?p ?s] =>
          pose proof (set_phase_frame id p s) as Hfr end.
        destruct Hfr as (_ & _ & _ & _ & _ & ->). simpl. by split.
  - simpl in Hstep. injection Hstep as <-. split; [done|].
    exists []. rewrite app_nil_r. split; [done|]. by intros p ?%elem_of_nil.
  - simpl in Hstep. injection Hstep as <-. split; [done|].
    exists []. rewrite app_nil_r. split; [done|]. by intros p ?%elem_of_nil.
Qed.

(** A step keeps every known request known and never takes a [_retry]
    flag down. *)
Lemma step_flag (ev : Event) (c c' : State) (id : ReqId) (r : Request) :
  Inv c → step ev c = Some c' → requests c !! id = Some r →
  ∃ r', requests c' !! id = Some r'
        ∧ (_retry (config r) = true → _retry (config r') = true).
Proof.
  intros HI Hstep Hr. destruct ev as [j cfg|j|j status message|j answer|data|].
  - simpl in Hstep. destruct (requests c !! j) eqn:Hj; [done|]. injection Hstep as <-.
    exists r. split; [|done]. simpl. rewrite lookup_insert_ne; [done|congruence].
  - simpl in Hstep. destruct (requests c !! j) as [[cfg []]|]; try done.
    injection Hstep as <-.
    destruct (set_phase_flag j id Fulfilled c r Hr) as (r' & -> & Hc').
    exists r'. by rewrite Hc'.
  - destruct (step_Fail_shape c c' j status message Hstep) as (cfg & Hj & Hshape).
    simpl in Hshape.
    destruct Hshape as [[-> _]|[(-> & _)|[(t & -> & _)|(c1 & Hc1 & -> & _)]]].
    + match goal with |- context [set_phase j ?p ?s] =>
        destruct (set_phase_flag j id p s r Hr) as (r' & -> & Hc') end.
      exists r'. by rewrite Hc'.
    + match goal with |- context [set_phase j ?p ?s] =>
        destruct (set_phase_flag j id p s r Hr) as (r' & -> & Hc') end.
      exists r'. by rewrite Hc'.
    + match goal with |- context [set_phase j ?p ?s] =>
        pose proof (λ r0, set_phase_flag j id p s r0) as Hfl end.
      simpl in Hfl. destruct (decide (id = j)) as [->|Hne].
      * destruct (Hfl (mkRequest (set_retry cfg) InFlight)) as (r' & -> & Hc');
          [by rewrite lookup_insert_eq|]. exists r'. by rewrite Hc'.
      * destruct (Hfl r) as (r' & -> & Hc'); [by rewrite lookup_insert_ne|].
        exists r'. by rewrite Hc'.
    + set (c2 := set_isRefreshing true
                   (set_requests (<[j:=mkRequest (set_retry cfg) InFlight]> (requests c)) c))
        in *.
      assert (∃ r2, requests c2 !! id = Some r2
                    ∧ (_retry (config r) = true → _retry (config r2) = true))
        as (r2 & Hr2 & Hf2).
      { simpl. destruct (decide (id = j)) as [->|Hne].
        - rewrite lookup_insert_eq. eauto.
        - rewrite lookup_insert_ne by done. eauto. }
      rewrite run_finally_release in Hc1.
      destruct (release_flag (pendingRequests c2)
                  id (set_pendingRequests [] (set_isRefreshing false c2)) r2 Hr2)
        as (r3 & Hr3 & Hf3).
      rewrite <- Hc1 in Hr3.
      match goal with |- context [set_phase j ?p ?s] =>
        destruct (set_phase_flag j id p s r3 Hr3) as (r' & -> & Hc') end.
      exists r'. split; [done|]. rewrite Hc', Hf3. exact Hf2.
  - destruct (step_RefreshAnswer_shape c c' j answer HI Hstep) as (cfg & e & Hj & Hshape).
    destruct answer as [a|]; subst c'.
    + set (c1 := set_localStorage _ (set_refreshPosts [] c)).
      assert (requests c1 !! id = Some r) as Hr1 by done.
      destruct (release_flag (pendingRequests c1)
                  id (set_pendingRequests [] (set_isRefreshing false c1)) r Hr1)
        as (r3 & Hr3 & Hf3).
      rewrite <- run_finally_release in Hr3.
      destruct (retry_original_flag j id (run_finally c1) r3 Hr3) as (r' & -> & Hf').
      exists r'. split; [done|]. congruence.
    + set (c1 := set_refreshPosts [] c).
      assert (requests c1 !! id = Some r) as Hr1 by done.
      destruct (release_flag (pendingRequests c1)
                  id (set_pendingRequests [] (set_isRefreshing false c1)) r Hr1)
        as (r3 & Hr3 & Hf3).
      rewrite <- run_finally_release in Hr3.
      match goal with |- context [set_phase j ?p ?s] =>
        destruct (set_phase_flag j id p s r3 Hr3) as (r' & -> & Hc') end.
      exists r'. split; [done|]. rewrite Hc'. congruence.
  - simpl in Hstep. injection Hstep as <-. eauto.
  - simpl in Hstep. injection Hstep as <-. eauto.
Qed.

End ClientStepFacts.

Module ClientRetryFacts.
Import Client ClientExtra TokenFacts ClientFacts ClientExtraFacts ClientStepFacts.

Lemma queued_unmarked_quiet (c : State) : pendingRequests c = [] → queued_unmarked c.
Proof. intros Hp id. rewrite Hp. by intros ?%elem_of_nil. Qed.

Lemma step_queued_unmarked (ev : Event) (c c' : State) :
  Inv c → queued_unmarked c → step ev c = Some c' → queued_unmarked c'.
Proof.
  intros HI HQ Hstep. destruct ev as [j cfg|j|j status message|j answer|data|].
  - simpl in Hstep. destruct (requests c !! j) eqn:Hj; [done|]. injection Hstep as <-.
    intros id Hin. destruct (HQ id Hin) as (r & Hr & Hf). exists r. split; [|done].
    simpl. rewrite lookup_insert_ne; [done|congruence].
  - simpl in Hstep. destruct (requests c !! j) as [[cfg []]|]; try done.
    injection Hstep as <-. intros id Hin.
    destruct (set_phase_frame j Fulfilled c) as (_ & _ & Hp & _).
    rewrite Hp in Hin. destruct (HQ id Hin) as (r & Hr & Hf).
    destruct (set_phase_flag j id Fulfilled c r Hr) as (r' & -> & Hc').
    exists r'. by rewrite Hc'.
  - destruct (step_Fail_shape c c' j status message Hstep) as (cfg & Hj & Hshape).
    simpl in Hshape.
    destruct Hshape as [[-> _]|[(-> & _ & Hretry & _)|[(t & -> & _ & _ & Hf & _)
                                                      |(c1 & Hc1 & -> & _)]]].
    + intros id Hin.
      match goal with H : context [set_phase j ?p ?s] |- _ =>
        pose proof (set_phase_frame j p s) as (_ & _ & Hp & _);
        pose proof (λ r0, set_phase_flag j id p s r0) as Hfl end.
      rewrite Hp in Hin. destruct (HQ id Hin) as (r & Hr & Hfr).
      destruct (Hfl r Hr) as (r' & -> & Hc'). exists r'. by rewrite Hc'.
    + intros id Hin.
      match goal with H : context [set_phase j ?p ?s] |- _ =>
        pose proof (set_phase_frame j p s) as (_ & _ & Hp & _);
        pose proof (λ r0, set_phase_flag j id p s r0) as Hfl end.
      rewrite Hp in Hin. simpl in Hin, Hfl.
      apply elem_of_app in Hin as [Hin| ->%list_elem_of_singleton].
      * destruct (HQ id Hin) as (r & Hr & Hfr).
        destruct (Hfl r Hr) as (r' & -> & Hc'). exists r'. by rewrite Hc'.
      * destruct (Hfl _ Hj) as (r' & -> & Hc'). exists r'. by rewrite Hc'.
    + apply queued_unmarked_quiet.
      match goal with |- context [set_phase j ?p ?s] =>
        pose proof (set_phase_frame j p s) as (_ & _ & -> & _) end.
      simpl. by destruct (Inv_flag_down c HI Hf).
    + apply queued_unmarked_quiet.
      match goal with |- context [set_phase j ?p ?s] =>
        pose proof (set_phase_frame j p s) as (_ & _ & -> & _) end.
      simpl. rewrite Hc1.
      match goal with |- context [run_finally ?s] =>
        by destruct (run_finally_frame s) as (_ & _ & -> & _) end.
  - apply queued_unmarked_quiet.
    by destruct (step_RefreshAnswer_quiet c c' j answer HI Hstep) as (_ & ? & _).
  - simpl in Hstep. by injection Hstep as <-.
  - simpl in Hstep. by injection Hstep as <-.
Qed.

Lemma reachable_queued_unmarked (c : State) : reachable c → queued_unmarked c.
Proof.
  induction 1 as [ls Hls|ev c c' Hc IH Hstep]; [by apply queued_unmarked_quiet|].
  apply (step_queued_unmarked ev c c'); [by apply reachable_Inv|done..].
Qed.

(** A refresh POST that is out after a step was out before it, or is the
    one the step started for an unmarked request. *)
Lemma step_posts (ev : Event) (c c' : State) (i : ReqId) :
  Inv c → step ev c = Some c' → i ∈ (refreshPosts c').*1 →
  i ∈ (refreshPosts c).*1
  ∨ ∃ status message cfg,
      ev = Fail i status message
      ∧ requests c !! i = Some (mkRequest cfg InFlight) ∧ _retry cfg = false.
Proof.
  intros HI Hstep Hin. destruct ev as [j cfg|j|j status message|j answer|data|].
  - simpl in Hstep. destruct (requests c !! j); [done|]. injection Hstep as <-. by left.
  - simpl in Hstep. destruct (requests c !! j) as [[cfg []]|]; try done.
    injection Hstep as <-.
    destruct (set_phase_frame j Fulfilled c) as (_ & _ & _ & _ & Hp & _).
    rewrite Hp in Hin. by left.
  - destruct (step_Fail_shape c c' j status message Hstep) as (cfg & Hj & Hshape).
    simpl in Hshape.
    destruct Hshape as [[-> _]|[(-> & _)|[(t & -> & _ & Hretry & Hf & _)
                                         |(c1 & Hc1 & -> & _ & _ & Hf & _)]]];
      match goal with H : context [set_phase j ?p ?s] |- _ =>
        pose proof (set_phase_frame j p s) as (_ & _ & _ & _ & Hp & _) end;
      rewrite Hp in Hin; simpl in Hin.
    + by left.
    + by left.
    + rewrite fmap_app in Hin.
      apply elem_of_app in Hin as [Hin| ->%list_elem_of_singleton]; [by left|].
      right. eauto 10.
    + left. rewrite Hc1 in Hin.
      match goal with H : context [run_finally ?s] |- _ =>
        destruct (run_finally_frame s) as (_ & _ & _ & _ & Hr) end.
      by rewrite Hr in Hin.
  - destruct (step_RefreshAnswer_quiet c c' j answer HI Hstep) as (_ & _ & Hr).
    rewrite Hr in Hin. by apply elem_of_nil in Hin.
  - simpl in Hstep. injection Hstep as <-. by left.
  - simpl in Hstep. injection Hstep as <-. by left.
Qed.

Lemma owed_le (id : ReqId) (c c' : State) :
  (id ∈ (refreshPosts c').*1 → id ∈ (refreshPosts c).*1) →
  (owed id c' ≤ owed id c)%nat.
Proof. intros H. unfold owed. repeat case_decide; try lia. exfalso. auto. Qed.

(** One step on a request marked as retried: the flag stays, and what
    has been sent plus what is still owed does not grow. *)
Lemma step_retried (ev : Event) (c c' : State) (id : ReqId) (r : Request) :
  Inv c → queued_unmarked c → step ev c = Some c' →
  requests c !! id = Some r → _retry (config r) = true →
  (transmissions id c' + owed id c' ≤ transmissions id c + owed id c)%nat.
Proof.
  intros HI HQ Hstep Hr Hflag.
  assert (id ∉ pendingRequests c) as Hnq.
  { intros Hin. destruct (HQ id Hin) as (r0 & Hr0 & Hf0). congruence. }
  destruct (step_touch ev c c' HI Hstep) as (_ & sent & Hw & Hsent).
  pose proof (step_enabled ev c c' Hstep) as Hen.
  assert ((∃ answer, ev = RefreshAnswer id answer)
          ∨ ¬ (∃ answer, ev = RefreshAnswer id answer)) as [[answer ->]|Hev].
  { destruct ev as [j cfg|j|j status message|j answer|data|];
      try (right; intros [? ?]; discriminate).
    destruct (decide (j = id)) as [->|Hne]; [left; eauto|].
    right. intros [? ?]. congruence. }
  - destruct Hen as [_ Hin].
    destruct (step_RefreshAnswer_quiet c c' id answer HI Hstep) as (_ & _ & Hposts).
    assert (owed id c = 1%nat) as -> by (unfold owed; by rewrite decide_True).
    assert (owed id c' = 0%nat) as ->.
    { unfold owed. rewrite Hposts. by rewrite decide_False by by intros ?%elem_of_nil. }
    rewrite (transmissions_sent id c c' sent Hw).
    assert (length (filter (λ p, p.1 = id) sent) ≤ 1)%nat; [|lia].
    destruct (step_RefreshAnswer_shape c c' id answer HI Hstep) as (cfg & e & Hid & Hshape).
    destruct answer as [a|].
    + set (c1 := set_localStorage _ (set_refreshPosts [] c)) in Hshape.
      destruct (run_finally_touch c1) as (_ & s1 & Hw1 & Hs1).
      destruct (retry_original_sent id (run_finally c1)) as (s2 & Hw2 & Hs2).
      assert (sent = (s1 ++ s2)%list) as ->.
      { apply (app_inv_head (wire c)). rewrite <- Hw, Hshape, Hw2, Hw1.
        by rewrite app_assoc. }
      rewrite filter_app, length_app, (filter_others id s1).
      * simpl. destruct (requests (run_finally c1) !! id) as [r1|] eqn:Hr1.
        -- rewrite (retry_original_wire _ _ _ Hr1) in Hw2.
           apply app_inv_head in Hw2 as <-. rewrite filter_cons, filter_nil.
           case_decide; simpl; lia.
        -- rewrite retry_original_unknown in Hw2 by done.
           rewrite <- (app_nil_r (wire (run_finally c1))) in Hw2 at 1.
           apply app_inv_head in Hw2 as <-. simpl. lia.
      * intros p Hp Heq. apply Hnq. rewrite <- Heq. by apply Hs1.
    + rewrite filter_others; [simpl; lia|].
      intros p Hp Heq. apply Hnq. rewrite <- Heq. by apply (Hsent p).
  - assert (transmissions id c' = transmissions id c) as ->.
    { apply (transmissions_same id c c' sent Hw). intros p Hp Heq.
      specialize (Hsent p Hp). rewrite Heq in Hsent.
      destruct ev as [j cfg|j|j status message|j [a|]|data|]; simpl in Hsent.
      - apply list_elem_of_singleton in Hsent as <-. congruence.
      - by apply elem_of_nil in Hsent.
      - done.
      - apply elem_of_app in Hsent as [?| <-%list_elem_of_singleton]; [done|].
        apply Hev. eauto.
      - done.
      - by apply elem_of_nil in Hsent.
      - by apply elem_of_nil in Hsent. }
    apply Nat.add_le_mono_l, owed_le. intros Hin.
    destruct (step_posts ev c c' id HI Hstep Hin)
      as [?|(status & message & cfg & -> & Hid & Hretry)]; [done|].
    rewrite Hr in Hid. injection Hid as ->. simpl in Hflag. congruence.
Qed.

End ClientRetryFacts.

(** ** The refresh protocol: more properties *)
Module ProtocolFacts.
Import Client ClientExtra TokenFacts ClientFacts.
Import ClientExtraFacts ClientStepFacts ClientRetryFacts Scenarios.

(** X5: no handler is left stranded in the queue. In every state the
    client can be in, the flag is up exactly while a refresh POST is out;
    if a handler is queued then the flag is up and exactly one POST is
    out, whose answer will release it; and every queued handler belongs
    to a request that is not marked as retried and did not start the
    refresh itself. *)
Theorem no_stranded_waiters (c : State) :
  reachable c →
  (isRefreshing c = true ↔ refreshPosts c ≠ [])
  ∧ (pendingRequests c ≠ [] →
     isRefreshing c = true ∧ length (refreshPosts c) = 1%nat)
  ∧ (∀ id, id ∈ pendingRequests c →
       ∃ cfg e, requests c !! id = Some (mkRequest cfg (Queued e))
                ∧ _retry cfg = false
                ∧ id ∉ (refreshPosts c).*1).
Proof.
  intros Hc. pose proof (reachable_Inv c Hc) as HI.
  pose proof (reachable_queued_unmarked c Hc) as HQ.
  split_and!.
  - apply (Inv_flag_up c HI).
  - intros Hne. destruct (isRefreshing c) eqn:Hf.
    + split; [done|]. apply (Inv_flag_up c HI) in Hf.
      pose proof (inv_single c HI). destruct (refreshPosts c); simpl in *; [done|lia].
    + by destruct (Inv_flag_down c HI Hf) as [_ ?].
  - intros id Hin.
    destruct (inv_queued c HI id Hin) as (cfg & e & Hid).
    destruct (HQ id Hin) as (r & Hr & Hflag).
    rewrite Hid in Hr. injection Hr as <-.
    exists cfg, e. split_and!; [done..|].
    intros Hpost. destruct (inv_refreshing c HI id Hpost) as (? & ? & ?). congruence.
Qed.

Lemma no_stranded_waiters_witness :
  reachable (state_after one_queued)
  ∧ pendingRequests (state_after one_queued) = [2%nat]
  ∧ isRefreshing (state_after one_queued) = true
  ∧ length (refreshPosts (state_after one_queued)) = 1%nat.
Proof.
  split; [apply state_after_reachable|]. split; [reflexivity|].
  apply (proj1 (proj2 (no_stranded_waiters _ (state_after_reachable one_queued)))).
  discriminate.
Defined.

(** X6: a 401 on a request not yet retried, with no refresh under way
    and no refresh token stored, posts nothing and sends nothing: the
    request is rejected with the error it got, both token keys are
    removed, and the location becomes [/login]. *)
Theorem unauthorized_without_refresh_token (c : State) (id : ReqId)
    (cfg : AxiosRequestConfig) (message : string) :
  reachable c →
  requests c !! id = Some (mkRequest cfg InFlight) → _retry cfg = false →
  isRefreshing c = false →
  getRefreshToken (localStorage c) = None →
  ∃ c', step (Fail id (Some 401) message) c = Some c'
        ∧ requests c' !! id
          = Some (mkRequest (set_retry cfg) (Rejected (mkError id (Some 401) message)))
        ∧ getAccessToken (localStorage c') = None
        ∧ getRefreshToken (localStorage c') = None
        ∧ location_href c' = "/login"
        ∧ isRefreshing c' = false
        ∧ refreshPosts c' = []
        ∧ pendingRequests c' = []
        ∧ wire c' = wire c.
Proof.
  intros Hc Hid Hretry Hf Hnone. pose proof (reachable_Inv c Hc) as HI.
  destruct (Inv_flag_down c HI Hf) as [Hposts Hpend].
  destruct (step (Fail id (Some 401) message) c) as [c'|] eqn:Hstep;
    [|simpl in Hstep; by rewrite Hid in Hstep].
  exists c'. split; [done|].
  destruct (step_Fail_shape c c' id (Some 401) message Hstep) as (cfg' & Hid' & Hshape).
  rewrite Hid in Hid'. injection Hid' as <-. simpl in Hshape.
  destruct Hshape as [[_ [?|?]]|[(_ & _ & _ & ?)|[(t & _ & _ & _ & _ & ? & _)
                                                 |(c1 & Hc1 & -> & _)]]];
    try congruence.
  set (c2 := set_isRefreshing true
               (set_requests (<[id:=mkRequest (set_retry cfg) InFlight]> (requests c)) c))
    in *.
  destruct (run_finally_frame c2) as (Hls & Hfl & Hp & Hloc & Hr).
  destruct (run_finally_touch c2) as (Hoth & sent & Hw & Hsent).
  assert (sent = []) as ->.
  { destruct sent as [|p sent]; [done|].
    specialize (Hsent p ltac:(left)). simpl in Hsent. rewrite Hpend in Hsent.
    by apply elem_of_nil in Hsent. }
  rewrite app_nil_r in Hw. subst c1.
  match goal with |- context [set_phase id ?p ?s] =>
    pose proof (set_phase_frame id p s) as Hfr;
    pose proof (set_phase_self id p s (mkRequest (set_retry cfg) InFlight)) as Hself end.
  destruct Hfr as (-> & -> & -> & -> & -> & ->). simpl.
  rewrite Hself.
  - rewrite Hfl, Hp, Hr, Hw. simpl. rewrite Hposts.
    split_and!; try done.
    + apply clearTokens_access.
    + apply clearTokens_refresh.
  - simpl. rewrite Hoth; [simpl; by rewrite lookup_insert_eq|].
    simpl. rewrite Hpend. by intros ?%elem_of_nil.
Qed.

Lemma unauthorized_without_refresh_token_witness :
  ∃ c', step (Fail 1%nat (Some 401) "Unauthorized")
          (state_after [Call 1%nat (fresh "/api/blocks-today/")]) = Some c'
        ∧ location_href c' = "/login"
        ∧ refreshPosts c' = []
        ∧ wire c' = wire (state_after [Call 1%nat (fresh "/api/blocks-today/")]).
Proof.
  destruct (unauthorized_without_refresh_token
              (state_after [Call 1%nat (fresh "/api/blocks-today/")]) 1%nat
              (fresh "/api/blocks-today/") "Unauthorized"
              (state_after_reachable _))
    as (c' & Hstep & _ & _ & _ & Hloc & _ & Hposts & _ & Hw); try reflexivity.
  exists c'. by split_and!.
Defined.

(** X7: a 401 on a request not yet retried, with no refresh under way
    and a refresh token stored, starts exactly one refresh POST, which
    carries exactly the stored refresh token. The request is marked as
    retried and its handler waits for the answer; the stored tokens, the
    location and the transmissions are as before. *)
Theorem unauthorized_starts_one_refresh (c : State) (id : ReqId)
    (cfg : AxiosRequestConfig) (message token : string) :
  reachable c →
  requests c !! id = Some (mkRequest cfg InFlight) → _retry cfg = false →
  isRefreshing c = false →
  getRefreshToken (localStorage c) = Some token →
  ∃ c', step (Fail id (Some 401) message) c = Some c'
        ∧ refreshPosts c' = [(id, token)]
        ∧ isRefreshing c' = true
        ∧ requests c' !! id
          = Some (mkRequest (set_retry cfg)
                    (Refreshing (mkError id (Some 401) message)))
        ∧ localStorage c' = localStorage c
        ∧ location_href c' = location_href c
        ∧ pendingRequests c' = []
        ∧ wire c' = wire c.
Proof.
  intros Hc Hid Hretry Hf Htok. pose proof (reachable_Inv c Hc) as HI.
  destruct (Inv_flag_down c HI Hf) as [Hposts Hpend].
  assert (token ≠ "") as Hne.
  { destruct HI as [[_ Hwf] _ _ _ _ _]. intros ->. congruence. }
  destruct (step (Fail id (Some 401) message) c) as [c'|] eqn:Hstep;
    [|simpl in Hstep; by rewrite Hid in Hstep].
  exists c'. split; [done|].
  destruct (step_Fail_shape c c' id (Some 401) message Hstep) as (cfg' & Hid' & Hshape).
  rewrite Hid in Hid'. injection Hid' as <-. simpl in Hshape.
  destruct Hshape as [[_ [?|?]]|[(_ & _ & _ & ?)|[(t & -> & _ & _ & _ & Ht & _)
                                                 |(c1 & _ & _ & _ & _ & _ & [?|?])]]];
    try congruence.
  assert (t = token) as -> by congruence.
  match goal with |- context [set_phase id ?p ?s] =>
    pose proof (set_phase_frame id p s) as Hfr;
    pose proof (set_phase_self id p s (mkRequest (set_retry cfg) InFlight)) as Hself end.
  destruct Hfr as (-> & -> & -> & -> & -> & ->). simpl.
  rewrite Hself by (simpl; by rewrite lookup_insert_eq).
  rewrite Hposts, Hpend. by split_and!.
Qed.

Lemma unauthorized_starts_one_refresh_witness :
  ∃ c', step (Fail 1%nat (Some 401) "Unauthorized")
          (state_after [signed_in; Call 1%nat (fresh "/api/blocks-today/")]) = Some c'
        ∧ refreshPosts c' = [(1%nat, "r0")].
Proof.
  destruct (unauthorized_starts_one_refresh
              (state_after [signed_in; Call 1%nat (fresh "/api/blocks-today/")]) 1%nat
              (set_Authorization "Bearer a0" (fresh "/api/blocks-today/"))
              "Unauthorized" "r0" (state_after_reachable _))
    as (c' & Hstep & Hposts & _); try reflexivity.
  exists c'. by split.
Defined.

End ProtocolFacts.

Module RetryBoundFacts.
Import Client ClientExtra TokenFacts ClientFacts.
Import ClientExtraFacts ClientStepFacts ClientRetryFacts Scenarios.

(** One step leaves a settled request alone. *)
Lemma step_settled (ev : Event) (c c' : State) (id : ReqId) (r : Request) :
  Inv c → step ev c = Some c' →
  requests c !! id = Some r → settled (phase r) = true →
  requests c' !! id = Some r ∧ transmissions id c' = transmissions id c.
Proof.
  intros HI Hstep Hr Hset.
  assert (id ∉ pendingRequests c) as Hnq.
  { intros Hin. destruct (inv_queued c HI id Hin) as (cfg & e & Hq).
    rewrite Hr in Hq. injection Hq as ->. done. }
  assert (id ∉ touched ev c) as Hnt.
  { pose proof (step_enabled ev c c' Hstep) as Hen.
    destruct ev as [j cfg|j|j status message|j answer|data|]; simpl;
      try (by intros ?%elem_of_nil).
    - intros ->%list_elem_of_singleton. congruence.
    - intros ->%list_elem_of_singleton. destruct Hen as [cfg Hj].
      rewrite Hr in Hj. injection Hj as ->. done.
    - intros [->|?]%elem_of_cons; [|done]. destruct Hen as [cfg Hj].
      rewrite Hr in Hj. injection Hj as ->. done.
    - intros [->|?]%elem_of_cons; [|done]. destruct Hen as [(cfg & e & Hj) _].
      rewrite Hr in Hj. injection Hj as ->. done. }
  destruct (step_touch ev c c' HI Hstep) as (Hoth & sent & Hw & Hsent).
  split; [by rewrite Hoth|].
  apply (transmissions_same id c c' sent Hw). intros p Hp Heq.
  specialize (Hsent p Hp). rewrite Heq in Hsent. apply Hnt.
  destruct ev as [j cfg|j|j status message|j [a|]|data|]; simpl in *; try done;
    first [ by right
          | apply elem_of_app in Hsent as [?| ->%list_elem_of_singleton];
            [by right|by left] ].
Qed.

(** X8: a settled request is final. Once the promise of a request has
    been fulfilled or rejected, nothing that happens later changes its
    config or its outcome, and it is never sent again. *)
Theorem settled_request_is_final (evs : list Event) (c c' : State) (id : ReqId)
    (r : Request) :
  reachable c →
  requests c !! id = Some r → settled (phase r) = true →
  exec evs c = Some c' →
  requests c' !! id = Some r ∧ transmissions id c' = transmissions id c.
Proof.
  revert c. induction evs as [|ev evs IH]; intros c Hc Hr Hset Hexec; simpl in Hexec.
  - by injection Hexec as <-.
  - destruct (step ev c) as [c1|] eqn:Hstep; [|done].
    destruct (step_settled ev c c1 id r (reachable_Inv c Hc) Hstep Hr Hset) as [Hr1 Ht1].
    destruct (IH c1 (reachable_step ev c c1 Hc Hstep) Hr1 Hset Hexec) as [Hr' Ht'].
    split; [done|congruence].
Qed.

Lemma settled_request_is_final_witness :
  ∃ c', exec [RefreshAnswer 2%nat (Some "a2"); Logout]
          (state_after
             (retried_during_refresh ++ [Fail 1%nat (Some 401) "Unauthorized"]))
        = Some c'
        ∧ transmissions 1%nat c' = 2%nat.
Proof.
  set (c := state_after (retried_during_refresh ++ [Fail 1%nat (Some 401) "Unauthorized"])).
  destruct (exec [RefreshAnswer 2%nat (Some "a2"); Logout] c) as [c'|] eqn:Hexec.
  - exists c'. split; [done|].
    destruct (settled_request_is_final
                [RefreshAnswer 2%nat (Some "a2"); Logout] c c' 1%nat
                (mkRequest (set_retry (set_Authorization "Bearer a1" (fresh "/api/blocks-today/")))
                   (Rejected (mkError 1%nat (Some 401) "Unauthorized")))
                (state_after_reachable _)) as [_ ->];
      [vm_compute; reflexivity|reflexivity|exact Hexec|vm_compute; reflexivity].
  - vm_compute in Hexec. discriminate.
Defined.

(** X9: a request marked as retried stays marked and is sent at most
    once more: only the answer to the refresh its own handler started
    can re-send it, and only once. Along every run from a state the
    client can be in, the number of its transmissions grows by at most
    one if its refresh POST is out at the start, and not at all
    otherwise. *)
Theorem retried_request_is_sent_at_most_once_more (evs : list Event) (c c' : State)
    (id : ReqId) (r : Request) :
  reachable c →
  requests c !! id = Some r → _retry (config r) = true →
  exec evs c = Some c' →
  (∃ r', requests c' !! id = Some r' ∧ _retry (config r') = true)
  ∧ (transmissions id c' ≤ transmissions id c + owed id c)%nat.
Proof.
  revert c r. induction evs as [|ev evs IH]; intros c r Hc Hr Hflag Hexec;
    simpl in Hexec.
  - injection Hexec as <-. split; [eauto|lia].
  - destruct (step ev c) as [c1|] eqn:Hstep; [|done].
    pose proof (reachable_Inv c Hc) as HI.
    destruct (step_flag ev c c1 id r HI Hstep Hr) as (r1 & Hr1 & Hflag1).
    pose proof (step_retried ev c c1 id r HI (reachable_queued_unmarked c Hc)
                  Hstep Hr Hflag) as Hle.
    destruct (IH c1 r1 (reachable_step ev c c1 Hc Hstep) Hr1 (Hflag1 Hflag) Hexec)
      as [Hr' Hle'].
    split; [done|].
    assert (transmissions id c1 ≤ transmissions id c + owed id c)%nat by lia.
    unfold owed in *. repeat case_decide; lia.
Qed.

Lemma retried_request_is_sent_at_most_once_more_witness :
  ∃ c', exec [Fail 2%nat (Some 401) "Unauthorized";
              RefreshAnswer 1%nat (Some "a1");
              Fail 1%nat (Some 401) "Unauthorized"]
          (state_after refresh_out) = Some c'
        ∧ (transmissions 1%nat c' ≤ 2)%nat.
Proof.
  destruct (exec [Fail 2%nat (Some 401) "Unauthorized";
                  RefreshAnswer 1%nat (Some "a1");
                  Fail 1%nat (Some 401) "Unauthorized"]
              (state_after refresh_out)) as [c'|] eqn:Hexec.
  - exists c'. split; [done|].
    exact (proj2 (retried_request_is_sent_at_most_once_more _ (state_after refresh_out) c'
                    1%nat
                    (mkRequest (set_retry (set_Authorization "Bearer a0"
                                             (fresh "/api/blocks-today/")))
                       (Refreshing (mkError 1%nat (Some 401) "Unauthorized")))
                    (state_after_reachable _)
                    ltac:(vm_compute; reflexivity) ltac:(reflexivity) Hexec)).
  - vm_compute in Hexec. discriminate.
Defined.

End RetryBoundFacts.

(** ** Signing in and out *)
Module AuthFacts.
Import Client TokenFacts ClientFacts ClientExtraFacts.

Lemma has_true (x : option string) :
  AuthProvider.has x = true ↔ ∃ s, x = Some s ∧ s ≠ "".
Proof.
  destruct x as [s|]; simpl.
  - rewrite truthy_true. split; [eauto|]. by intros (? & [= <-] & ?).
  - split; [done|]. by intros (? & ? & ?).
Qed.

Lemma render_mount (ls : Storage) (st : AuthProvider.AuthState) :
  ProtectedRoute.render (AuthProvider.mount ls st)
  = if AuthProvider.has (getAccessToken ls) && AuthProvider.has (getRefreshToken ls)
    then ProtectedRoute.Children
    else ProtectedRoute.Navigate "/login".
Proof.
  unfold ProtectedRoute.render, AuthProvider.mount. simpl.
  by destruct (AuthProvider.has (getAccessToken ls) && AuthProvider.has (getRefreshToken ls)).
Qed.

(** X10: once the provider's mount effect has run, the protected route
    shows its children exactly when both an access token and a refresh
    token are stored and non-empty; in every other case it navigates to
    [/login]. Before the effect has run it shows the loading placeholder
    and never navigates. *)
Theorem protected_route_after_mount (ls : Storage) (st : AuthProvider.AuthState) :
  (ProtectedRoute.render (AuthProvider.mount ls st) = ProtectedRoute.Children
   ↔ ∃ a r, getAccessToken ls = Some a ∧ a ≠ ""
            ∧ getRefreshToken ls = Some r ∧ r ≠ "")
  ∧ (ProtectedRoute.render (AuthProvider.mount ls st) = ProtectedRoute.Children
     ∨ ProtectedRoute.render (AuthProvider.mount ls st) = ProtectedRoute.Navigate "/login")
  ∧ ProtectedRoute.render AuthProvider.initial = ProtectedRoute.LoadingView.
Proof.
  rewrite render_mount. split_and!; [|by case_match; auto|done].
  destruct (AuthProvider.has (getAccessToken ls)) eqn:Ha;
    destruct (AuthProvider.has (getRefreshToken ls)) eqn:Hr; simpl.
  - apply has_true in Ha as (a & Ha & ?), Hr as (r & Hr & ?).
    split; [eauto 10|done].
  - split; [done|]. intros (a & r & _ & _ & Hr' & Hne).
    assert (AuthProvider.has (getRefreshToken ls) = true) by (apply has_true; eauto).
    congruence.
  - split; [done|]. intros (a & r & Ha' & Hne & _).
    assert (AuthProvider.has (getAccessToken ls) = true) by (apply has_true; eauto).
    congruence.
  - split; [done|]. intros (a & r & Ha' & Hne & _).
    assert (AuthProvider.has (getAccessToken ls) = true) by (apply has_true; eauto).
    congruence.
Qed.



(** X12: after a failed refresh the next page load is signed out. When
    the refresh POST is rejected, the location becomes [/login], and a
    provider mounted over the storage the client leaves behind makes the
    protected route navigate to [/login]. *)
Theorem failed_refresh_signs_out (c c' : State) (id : ReqId)
    (st : AuthProvider.AuthState) :
  reachable c →
  step (RefreshAnswer id None) c = Some c' →
  location_href c' = "/login"
  ∧ AuthProvider.isAuthed (AuthProvider.mount (localStorage c') st) = false
  ∧ ProtectedRoute.render (AuthProvider.mount (localStorage c') st)
    = ProtectedRoute.Navigate "/login".
Proof.
  intros Hc Hstep. pose proof (reachable_Inv c Hc) as HI.
  destruct (step_RefreshAnswer_shape c c' id None HI Hstep) as (cfg & e & _ & ->).
  match goal with |- context [set_phase id ?p ?s] =>
    pose proof (set_phase_frame id p s) as Hfr end.
  destruct Hfr as (-> & _ & _ & -> & _). simpl.
  rewrite render_mount. simpl. by rewrite clearTokens_access.
Qed.

Lemma failed_refresh_signs_out_witness :
  ∃ c', step (RefreshAnswer 1%nat None) (Scenarios.state_after Scenarios.one_queued)
        = Some c'
        ∧ ProtectedRoute.render (AuthProvider.mount (localStorage c') AuthProvider.initial)
          = ProtectedRoute.Navigate "/login".
Proof.
  destruct (step (RefreshAnswer 1%nat None) (Scenarios.state_after Scenarios.one_queued))
    as [c'|] eqn:Hstep.
  - exists c'. split; [done|].
    exact (proj2 (proj2 (failed_refresh_signs_out _ c' 1%nat AuthProvider.initial
                           (state_after_reachable _) Hstep))).
  - vm_compute in Hstep. discriminate.
Defined.

End AuthFacts.

(** ** The switched client and provider *)
Module DevFacts.
Import Client TokenFacts.

(** X13: with [AUTH_DISABLED] off, the request interceptor and the
    rejection handler of the switched client are those of client.ts, on
    every input. With it on, the interceptor returns every config as it
    is, also when a token is stored, and the handler rejects every error
    with the error it was given, a 401 included, leaving the state as it
    was: nothing is refreshed, cleared or redirected. *)
Theorem switched_client_agrees (error : AxiosError) (c : State) (ls : Storage)
    (cfg : AxiosRequestConfig) :
  ClientDev.request_interceptor false ls cfg = request_interceptor ls cfg
  ∧ ClientDev.onRejected false error c = onRejected error c
  ∧ ClientDev.request_interceptor true ls cfg = cfg
  ∧ ClientDev.onRejected true error c = (Reject error, c).
Proof. by split_and!. Qed.

Lemma dev_keys_apart (k : string) :
  k = "access" ∨ k = "refresh" → k ≠ ACCESS_KEY ∧ k ≠ REFRESH_KEY.
Proof. intros [->| ->]; split; discriminate. Qed.

(** X14: the switched provider keeps its own keys. Its [logout] removes
    the keys [access] and [refresh] in auth mode and nothing in no-auth
    mode; in neither mode does it touch the keys the client stores its
    tokens under, so the client's getters return what they returned
    before. Its [login] writes nothing, so the next mount decides as it
    would have without it. In auth mode the mount after a [logout] is
    signed out and the route navigates to [/login]; in no-auth mode the
    route shows its children whatever the provider says. *)
Theorem switched_provider_keeps_client_tokens (AUTH_DISABLED : bool) (ls : Storage)
    (isAuthenticated : bool) :
  getAccessToken (AuthProviderDev.logout AUTH_DISABLED ls).1 = getAccessToken ls
  ∧ getRefreshToken (AuthProviderDev.logout AUTH_DISABLED ls).1 = getRefreshToken ls
  ∧ (AuthProviderDev.logout AUTH_DISABLED ls).2 = false
  ∧ (AuthProviderDev.logout true ls).1 = ls
  ∧ AuthProviderDev.mount AUTH_DISABLED (AuthProviderDev.login AUTH_DISABLED ls).1
    = AuthProviderDev.mount AUTH_DISABLED ls
  ∧ AuthProviderDev.mount false (AuthProviderDev.logout false ls).1 = false
  ∧ AuthProviderDev.render false
      (AuthProviderDev.mount false (AuthProviderDev.logout false ls).1)
    = ProtectedRoute.Navigate "/login"
  ∧ AuthProviderDev.render true isAuthenticated = ProtectedRoute.Children.
Proof.
  assert (AuthProviderDev.mount false (AuthProviderDev.logout false ls).1 = false) as Hm.
  { unfold AuthProviderDev.mount, AuthProviderDev.logout, getItem, removeItem. simpl.
    rewrite lookup_delete_ne by discriminate. by rewrite lookup_delete_eq. }
  split_and!; try done.
  - unfold AuthProviderDev.logout, getAccessToken, getItem, removeItem.
    destruct AUTH_DISABLED; simpl; [done|].
    by rewrite !lookup_delete_ne by discriminate.
  - unfold AuthProviderDev.logout, getRefreshToken, getItem, removeItem.
    destruct AUTH_DISABLED; simpl; [done|].
    by rewrite !lookup_delete_ne by discriminate.
  - by destruct AUTH_DISABLED.
  - by rewrite Hm.
Qed.

End DevFacts.

(** ** The Daily Review page *)
Module DailyReviewPageFacts.
Import Types DailyReviewPage.

Lemma foldl_minutes_shift (bs : list BlockDto) (acc : Z) :
  foldl (λ acc b, acc + minutes b) acc bs
  = acc + foldl (λ acc b, acc + minutes b) 0 bs.
Proof.
  revert acc. induction bs as [|b bs IH]; intros acc; simpl; [lia|].
  rewrite (IH (acc + minutes b)), (IH (0 + minutes b)). lia.
Qed.

Lemma totalMinutes_cons (b : BlockDto) (bs : list BlockDto) :
  totalMinutes (Some (b :: bs)) = minutes b + totalMinutes (Some bs).
Proof. simpl. rewrite foldl_minutes_shift. lia. Qed.

(** X15: the suggestions response decides nothing but the suggestions.
    Whatever it holds, the blocks [load] shows are those of the
    blocks-today response, as many and in the same order, each with every
    other field as received and with a suggestions list (possibly
    empty); so the total of minutes and the block count of the header
    are those of the blocks-today response. *)
Theorem merge_changes_suggestions_only (b withSug : list BlockDto) :
  core_fields <$> DailyReview.load b withSug = core_fields <$> b
  ∧ (∀ x, x ∈ DailyReview.load b withSug → is_Some (suggestions x))
  ∧ totalMinutes (Some (DailyReview.load b withSug)) = totalMinutes (Some b)
  ∧ count (Some (DailyReview.load b withSug)) = count (Some b).
Proof.
  unfold DailyReview.load. set (m := DailyReview.sugMap withSug). split_and!.
  - induction b as [|x b IH]; [done|]. simpl. f_equal. exact IH.
  - intros x [y [-> _]]%list_elem_of_fmap. simpl. eauto.
  - induction b as [|x b IH]; [done|].
    change (map ?f (x :: b)) with (f x :: map f b).
    rewrite !totalMinutes_cons, IH. done.
  - simpl. apply length_map.
Qed.

(** X16: how [load] ends. It always ends not busy. If either request
    fails it throws and the blocks shown stay those shown before; the
    suggestions are requested only after the blocks have arrived. If both
    arrive, the merged list replaces the blocks, and "No blocks yet
    today." then shows exactly when the blocks-today response was
    empty. *)
Theorem load_outcomes (blocksToday suggestionsToday : Fetched) (p : Page) :
  busy (load blocksToday suggestionsToday p).1.1 = false
  ∧ ((load blocksToday suggestionsToday p).2 = true →
     blocks (load blocksToday suggestionsToday p).1.1 = blocks p)
  ∧ ((load blocksToday suggestionsToday p).2 = true ↔
     blocksToday = Failed ∨ suggestionsToday = Failed)
  ∧ (blocksToday = Failed →
     (load blocksToday suggestionsToday p).1.2 = ["/api/blocks-today/"])
  ∧ (∀ b withSug, blocksToday = Ok b → suggestionsToday = Ok withSug →
       blocks (load blocksToday suggestionsToday p).1.1
       = Some (DailyReview.load b withSug)
       ∧ (shows_empty (load blocksToday suggestionsToday p).1.1 = true ↔ b = [])).
Proof.
  destruct blocksToday as [b|], suggestionsToday as [ws|]; simpl;
    split_and!; try done; try (split; [done|by intros [?|?]]);
    try (split; [intros _|done]; auto).
  intros b' ws' [= <-] [= <-]. split; [done|].
  unfold shows_empty. simpl. unfold DailyReview.load.
  destruct b; simpl; split; done.
Qed.

End DailyReviewPageFacts.

(** ** The block card and the login page *)
Module CardFacts.
Import Types BlockCardView.

Lemma if_truthy_default (label : option string) :
  BlockCard.if_truthy (default "" label) = kept label.
Proof. by destruct label as [[|a s]|]. Qed.

(** X17: saving a card nobody has typed into submits the block's id and
    exactly the non-empty labels the block already has (notes included),
    and never asks for a rule. *)
Theorem untouched_card_resubmits_labels (block : BlockDto) :
  BlockCard.apply (BlockCardView.initial block)
  = Blocks.mkPayload (id block)
      (kept (client block)) (kept (project block)) (kept (task block))
      (kept (notes block)) None None None None None.
Proof.
  unfold BlockCard.apply, BlockCardView.initial. simpl.
  by rewrite !if_truthy_default.
Qed.

Lemma app_empty (x y : string) : x ++ y = "" → x = "".
Proof. by destruct x. Qed.

Lemma join_empty (sep : string) (l : list string) :
  Forall (λ s, s ≠ "") l → BlockCardView.join sep l = "" → l = [].
Proof.
  intros Hall. destruct l as [|x [|y l]]; [done|..]; simpl; intros Hj;
    apply Forall_cons in Hall as [Hx _].
  - done.
  - by apply app_empty in Hj.
Qed.

(** X18: the line under the time range is empty, and so not rendered,
    exactly when title, url and file path are all missing or empty; and
    a block with a title only shows just the title, with no separator. *)
Theorem meta_empty_iff (block : BlockDto) :
  (BlockCardView.meta block = ""
   ↔ default "" (title block) = ""
     ∧ default "" (url block) = ""
     ∧ default "" (file_path block) = "")
  ∧ (default "" (url block) = "" → default "" (file_path block) = "" →
     BlockCardView.meta block = default "" (title block)).
Proof.
  unfold BlockCardView.meta.
  set (t := default "" (title block)). set (u := default "" (url block)).
  set (f := default "" (file_path block)). split.
  - split.
    + intros Hj. apply join_empty in Hj.
      * destruct t, u, f; simpl in *; try done.
      * apply Forall_forall. intros s [Hs _]%list_elem_of_filter.
        by apply truthy_true.
    + intros (-> & -> & ->). reflexivity.
  - intros Hu Hf. subst t u f.
    destruct (title block) as [[|? ?]|], (url block) as [[|? ?]|],
      (file_path block) as [[|? ?]|]; simpl in *; done.
Qed.

End CardFacts.

Module LoginFacts.
Import LoginPage.


End LoginFacts.
